(** * Component-resolution engine of faebryk/libs/picker/picker.py

    A shallow embedding of the pick tree, the pick-error taxonomy, the
    equivalence grouper and the topological pick driver, followed by the
    properties established about them.

    Conventions of the embedding:
    - graph nodes (modules, parameters, expressions, graphs) are compared by
      identity in the Python code; an identity is a natural number here;
    - a Python [dict] is an association list in insertion order whose keys are
      pairwise different; writing to a key that is present replaces the value
      in place, writing to a new key appends;
    - a Python [set] is a duplicate-free list; its iteration order is the
      order of the list;
    - logging, timing and the optional progress observer have no influence on
      control flow and are left out. *)

From Stdlib Require Import List Bool Arith Lia String Permutation.
Import ListNotations.
Open Scope string_scope.
Open Scope list_scope.
Set Warnings "-register-all".

(* ================================================================== *)
(** * Part I: definitions                                              *)
(* ================================================================== *)

(** ** Identities *)

Definition Module_ := nat.
Definition ParameterOperatable := nat.
Definition Parameter_ := ParameterOperatable.
Definition Graph := nat.
Definition Literal := nat.

Definition mem (x : nat) (l : list nat) : bool := existsb (Nat.eqb x) l.

(** ** Python dictionaries keyed by node identity *)

Definition dict (V : Type) := list (nat * V).

Definition keys {V} (d : dict V) : list nat := map fst d.

Fixpoint dict_get {V} (k : nat) (d : dict V) : option V :=
  match d with
  | [] => None
  | (k', v) :: r => if Nat.eqb k k' then Some v else dict_get k r
  end.

Definition dict_has {V} (k : nat) (d : dict V) : bool := mem k (keys d).

(** [d[k] = v] *)
Fixpoint dict_set {V} (k : nat) (v : V) (d : dict V) : dict V :=
  match d with
  | [] => [(k, v)]
  | (k', v') :: r =>
      if Nat.eqb k k' then (k', v) :: r else (k', v') :: dict_set k v r
  end.

(** [d.update(items)], and [a | b] when [d] is a copy of [a] *)
Definition dict_update {V} (d : dict V) (items : list (nat * V)) : dict V :=
  fold_left (fun acc kv => dict_set (fst kv) (snd kv) acc) items d.

(** [dict(items)] and the dict comprehension over [items] *)
Definition dict_of_items {V} (items : list (nat * V)) : dict V :=
  dict_update [] items.

Definition dict_union {V} (a b : dict V) : dict V := dict_update a b.

(** [set(xs)] *)
Definition set_of (xs : list nat) : list nat := keys (dict_of_items (map (fun x => (x, tt)) xs)).

(** ** Pick tree *)

(** [Tree[Module]] is a dict from a module to the tree below it. *)
Inductive Tree : Type :=
| mkTree (items : dict Tree).

Definition tree_items (t : Tree) : dict Tree :=
  match t with mkTree items => items end.

Definition tree_keys (t : Tree) : list Module_ := keys (tree_items t).

(** [not tree] *)
Definition tree_is_empty (t : Tree) : bool :=
  match tree_items t with [] => true | _ => false end.

(** [Tree(pairs)] *)
Definition Tree_of (pairs : list (Module_ * Tree)) : Tree := mkTree (dict_of_items pairs).

(** The modules of a tree at every depth. *)
Fixpoint tree_modules (t : Tree) : list Module_ :=
  match t with
  | mkTree items =>
      (fix go (l : dict Tree) : list Module_ :=
         match l with
         | [] => []
         | (k, v) :: r => k :: tree_modules v ++ go r
         end) items
  end.

(** Keys pairwise different at every level: what every Python [Tree] satisfies. *)
Fixpoint tree_wf (t : Tree) : Prop :=
  match t with
  | mkTree items =>
      NoDup (keys items) /\
      (fix go (l : dict Tree) : Prop :=
         match l with
         | [] => True
         | (_, v) :: r => tree_wf v /\ go r
         end) items
  end.

Section PickTree.
(** [k.has_trait(F.has_part_picked)] in the current state of the design *)
Variable has_part_picked : Module_ -> bool.

Fixpoint update_pick_tree (tree : Tree) : Tree * bool :=
  match tree with
  | mkTree [] => (tree, false)
  | mkTree items =>
      let filtered_tree :=
        Tree_of
          ((fix go (l : dict Tree) : list (Module_ * Tree) :=
              match l with
              | [] => []
              | (k, v) :: r =>
                  if negb (has_part_picked k) && negb (snd (update_pick_tree v))
                  then (k, fst (update_pick_tree v)) :: go r
                  else go r
              end) items) in
      if tree_is_empty filtered_tree
      then (filtered_tree, true)
      else (filtered_tree, false)
  end.
End PickTree.

(** The entries that survive pruning, as the generator expression of
    [update_pick_tree] yields them. *)
Definition kept_items (has_part_picked : Module_ -> bool) (items : dict Tree)
    : list (Module_ * Tree) :=
  flat_map
    (fun kv =>
       if negb (has_part_picked (fst kv))
          && negb (snd (update_pick_tree has_part_picked (snd kv)))
       then [(fst kv, fst (update_pick_tree has_part_picked (snd kv)))]
       else [])
    items.

(** [_list_to_hack_tree] *)
Definition _list_to_hack_tree (modules : list Module_) : Tree :=
  Tree_of (map (fun m => (m, mkTree [])) modules).

(** ** Building the pick tree *)

(** A node of the design hierarchy as [get_pick_tree] walks it.  [node_id]
    is the module that [get_most_special()] gives for a [Module] (the
    interface itself for a [ModuleInterface]); [node_children] are its direct
    children of type [Module] or [ModuleInterface], the node itself left
    out. *)
Inductive Node : Type :=
| mkNode (node_id : Module_) (node_children : list Node).

Section BuildPickTree.
(** [module.has_trait(F.has_part_picked)] and [module.has_trait(F.is_pickable)] *)
Variables has_part_picked is_pickable : Module_ -> bool.

(** [get_pick_tree]: [merge_tree] is the tree itself or, for a pickable
    module, the tree stored under the module; every child's tree is merged
    into it with [dict.update]. *)
Fixpoint get_pick_tree (module : Node) : Tree :=
  match module with
  | mkNode m children =>
      if has_part_picked m then mkTree []
      else
        let merge_tree :=
          (fix merge (l : list Node) (acc : dict Tree) : dict Tree :=
             match l with
             | [] => acc
             | child :: r => merge r (dict_update acc (tree_items (get_pick_tree child)))
             end) children [] in
        if is_pickable m then mkTree [(m, mkTree merge_tree)] else mkTree merge_tree
  end.

(** The merged trees of a list of children. *)
Definition merged_children (children : list Node) : dict Tree :=
  fold_left (fun acc child => dict_update acc (tree_items (get_pick_tree child)))
            children [].
End BuildPickTree.

(** ** Error taxonomy *)

Definition nl : string := String (Ascii.ascii_of_nat 10) EmptyString.

(** The [PickError] class and its subclasses, one constructor per class.
    [message] and [modules] are the attributes set by [PickError.__init__]. *)
Inductive PickError : Type :=
| MkPickError (message : string) (modules : list Module_)
| MkPickErrorNotImplemented (module : Module_)
| MkPickVerificationError (message : string) (modules : list Module_)
| MkPickErrorChildren (module : Module_) (children : dict PickError).

(** [PickVerificationError(message, *modules)] prefixes its message. *)
Definition PickVerificationError (message : string) (modules : list Module_) : PickError :=
  MkPickVerificationError
    ("Post-pick verification failed for picked parts:" ++ nl ++ message)%string modules.

(** [isinstance(v, PickErrorChildren)] *)
Definition is_PickErrorChildren (e : PickError) : bool :=
  match e with MkPickErrorChildren _ _ => true | _ => false end.

(** [isinstance(v, PickVerificationError)] *)
Definition is_PickVerificationError (e : PickError) : bool :=
  match e with MkPickVerificationError _ _ => true | _ => false end.

Definition error_modules (e : PickError) : list Module_ :=
  match e with
  | MkPickError _ ms => ms
  | MkPickErrorNotImplemented m => [m]
  | MkPickVerificationError _ ms => ms
  | MkPickErrorChildren m _ => [m]
  end.

(** [PickErrorChildren.get_all_children]; the method exists on the aggregate
    class only, other errors have no children. *)
Fixpoint get_all_children (e : PickError) : dict PickError :=
  match e with
  | MkPickErrorChildren _ children =>
      dict_union
        (dict_of_items
           (filter (fun kv => negb (is_PickErrorChildren (snd kv))) children))
        (dict_of_items
           ((fix nested (l : dict PickError) : list (Module_ * PickError) :=
               match l with
               | [] => []
               | (_, v) :: r =>
                   (if is_PickErrorChildren v then get_all_children v else [])
                   ++ nested r
               end) children))
  | _ => []
  end.

(** The two comprehensions of [get_all_children]: the entries with a terminal
    cause, and the flattened entries of the nested aggregates. *)
Definition leaf_items (children : dict PickError) : list (Module_ * PickError) :=
  filter (fun kv => negb (is_PickErrorChildren (snd kv))) children.

Definition nested_items (children : dict PickError) : list (Module_ * PickError) :=
  flat_map
    (fun kv => if is_PickErrorChildren (snd kv) then get_all_children (snd kv) else [])
    children.

(** A module is implicated with a terminal cause when some children mapping,
    at any depth of nesting, maps it to an error that is not an aggregate. *)
Inductive implicated : PickError -> Module_ -> Prop :=
| implicated_here module children m v :
    In (m, v) children -> is_PickErrorChildren v = false ->
    implicated (MkPickErrorChildren module children) m
| implicated_below module children k v m :
    In (k, v) children -> is_PickErrorChildren v = true ->
    implicated v m ->
    implicated (MkPickErrorChildren module children) m.

(** ** Exceptions and results *)

(** The exceptions that cross the functions below.  [ContradictionByLiteral]
    is a subclass of [Contradiction]; every exception carries the text that
    [str(e)] gives. *)
Inductive Exception : Type :=
| Contradiction (msg : string)
| ContradictionByLiteral (msg : string)
| NotCompatibleException (msg : string)
| NotDeducibleException (msg : string)
| PickErrorRaised (e : PickError)
| AssertionError
| IndexError
| KeyError
| StopIteration
| TraitNotFound
| OtherException (msg : string).

(** [except Contradiction as e]: the clause matches, and [str(e)] is the text. *)
Definition as_Contradiction (e : Exception) : option string :=
  match e with
  | Contradiction msg | ContradictionByLiteral msg => Some msg
  | _ => None
  end.

(** [except (NotCompatibleException, NotDeducibleException) as e] *)
Definition as_NotCompatible_or_NotDeducible (e : Exception) : option string :=
  match e with
  | NotCompatibleException msg | NotDeducibleException msg => Some msg
  | _ => None
  end.

Inductive Result (A : Type) : Type :=
| Ok (a : A)
| Err (e : Exception).
Arguments Ok {A} a.
Arguments Err {A} e.

Definition rbind {A B} (r : Result A) (k : A -> Result B) : Result B :=
  match r with
  | Ok a => k a
  | Err e => Err e
  end.

(** ** Equivalence classes *)

(** Modelled from the spec: [faebryk.libs.util.EquivalenceClasses] is not part
    of the sources at hand.  Design note "Union-find equivalence classes": a
    standard disjoint-set structure keyed by stable identity, seeded with
    singleton members for the elements given at construction, so that an
    element that never appears in a union call keeps a class of its own.
    The classes are kept as a list of duplicate-free, pairwise disjoint
    lists; [add_eq] first gives every value not seen before a class of its
    own and then merges all classes that hold one of the values. *)
Definition EquivalenceClasses := list (list nat).

(** Modelled from the spec: [faebryk.libs.util.unique] with the identity
    key: the different elements, in the order of first occurrence. *)
Fixpoint unique (l : list nat) : list nat :=
  match l with
  | [] => []
  | x :: r => x :: filter (fun y => negb (Nat.eqb y x)) (unique r)
  end.

Definition EC_new (base : list nat) : EquivalenceClasses :=
  map (fun x => [x]) (unique base).

Definition EC_known (v : nat) (cs : EquivalenceClasses) : bool :=
  existsb (mem v) cs.

Definition EC_register (cs : EquivalenceClasses) (v : nat) : EquivalenceClasses :=
  if EC_known v cs then cs else cs ++ [[v]].

Definition EC_touches (vs : list nat) (c : list nat) : bool :=
  existsb (fun v => mem v c) vs.

Definition EC_add_eq (vs : list nat) (cs : EquivalenceClasses) : EquivalenceClasses :=
  match vs with
  | [] => cs
  | _ =>
      let cs1 := fold_left EC_register vs cs in
      filter (fun c => negb (EC_touches vs c)) cs1
      ++ [List.concat (filter (EC_touches vs) cs1)]
  end.

Definition EC_get (cs : EquivalenceClasses) : list (list nat) := cs.

(** A run of [add_eq] calls. *)
Definition EC_add_all (vss : list (list nat)) (cs : EquivalenceClasses) : EquivalenceClasses :=
  fold_left (fun acc vs => EC_add_eq vs acc) vss cs.

(** The classes are pairwise disjoint, duplicate-free and not empty. *)
Definition EC_wf (cs : EquivalenceClasses) : Prop :=
  NoDup (List.concat cs) /\ Forall (fun c => c <> []) cs.

(** Two elements lie in one class. *)
Definition same_class (cs : list (list nat)) (x y : nat) : Prop :=
  exists c, In c cs /\ In x c /\ In y c.

(** ** The design graph as the grouper reads it *)

Inductive Operand : Type :=
| OperandLiteral (l : Literal)
| OperandOperatable (o : ParameterOperatable).

(** A [ConstrainableExpression] node.  [operand_parameters] is what
    [get_operand_parameters(recursive=True)] returns. *)
Record Expression : Type := mkExpression {
  is_Is : bool;
  constrained : bool;
  operands : list Operand;
  operand_parameters : list Parameter_
}.

(** [e.operatable_operands] and [e.get_operand_operatables()] *)
Definition operatable_operands (e : Expression) : list ParameterOperatable :=
  unique (flat_map (fun o => match o with
                             | OperandOperatable p => [p]
                             | OperandLiteral _ => []
                             end) (operands e)).

(** [e.get_operand_literals().values()] *)
Definition operand_literals (e : Expression) : list Literal :=
  flat_map (fun o => match o with
                     | OperandLiteral l => [l]
                     | OperandOperatable _ => []
                     end) (operands e).

Record DesignGraph : Type := mkDesignGraph {
  (** [nodes_of_type(ConstrainableExpression)] over the graphs of the modules *)
  nodes_of_type_ConstrainableExpression : list Module_ -> list Expression;
  (** [p.get_parent()[0]] when the parameter has a parent and it is a [Module] *)
  parent_module : Parameter_ -> option Module_;
  (** [m.get_trait(F.is_pickable_by_type).get_parameters().values()];
      [None] when the module does not carry the trait *)
  pickable_parameters : Module_ -> option (list Parameter_);
  (** [o.get_graph()] *)
  get_graph : ParameterOperatable -> Graph
}.

(** [solver.reusable_state]; [map_forward p] is
    [state.data.mutation_map.map_forward(p).maps_to]. *)
Record ReusableState : Type := mkReusableState {
  map_forward : Parameter_ -> ParameterOperatable
}.

Record Solver : Type := mkSolver {
  is_DefaultSolver : bool;
  reusable_state : option ReusableState
}.

(** The nodes of type [Is] are the [Is] nodes among the constrainable ones. *)
Definition nodes_of_type_Is (g : DesignGraph) (modules : list Module_) : list Expression :=
  filter is_Is (nodes_of_type_ConstrainableExpression g modules).

(** Modelled from the spec: [faebryk.core.solver.utils.get_graphs] is not part
    of the sources at hand: the different graphs of the given nodes. *)
Definition get_graphs (g : DesignGraph) (nodes : list ParameterOperatable) : list Graph :=
  unique (map (get_graph g) nodes).

(** ** find_independent_groups *)

(** First loop of the slow path: the alias classes and the literal found for
    one operand of every enforced [Is] that has a literal operand. *)
Fixpoint collect_aliases (es : list Expression)
    (aliased : EquivalenceClasses) (lits : dict Literal)
    : Result (EquivalenceClasses * dict Literal) :=
  match es with
  | [] => Ok (aliased, lits)
  | e :: r =>
      if negb (constrained e) then collect_aliases r aliased lits
      else
        let aliased := EC_add_eq (operatable_operands e) aliased in
        match operand_literals e with
        | [] => collect_aliases r aliased lits
        | l :: _ =>
            match operatable_operands e with
            | [] => Err KeyError
            | o :: _ => collect_aliases r aliased (dict_set o l lits)
            end
        end
  end.

(** [unique((lits[p] for p in alias_group if p in lits), lambda x: x)] *)
Definition lits_eq_of (lits : dict Literal) (alias_group : list nat) : list Literal :=
  unique (flat_map (fun p => match dict_get p lits with
                             | Some l => [l]
                             | None => []
                             end) alias_group).

(** Second loop of the slow path: one literal per alias class. *)
Fixpoint unify_literals (groups : list (list nat)) (lits : dict Literal)
    : Result (dict Literal) :=
  match groups with
  | [] => Ok lits
  | alias_group :: r =>
      match lits_eq_of lits alias_group with
      | [] => unify_literals r lits
      | [l] =>
          unify_literals r
            (fold_left (fun acc p => dict_set p l acc) alias_group lits)
      | _ :: _ :: _ => Err (ContradictionByLiteral "")
      end
  end.

Definition literal_pass (g : DesignGraph) (modules : list Module_) : Result (dict Literal) :=
  rbind (collect_aliases (nodes_of_type_Is g modules) (EC_new []) [])
        (fun al => unify_literals (EC_get (fst al)) (snd al)).

(** [ps = e.get_operand_parameters(recursive=True); ps.difference_update(lits.keys())] *)
Definition free_parameters (lits : dict Literal) (e : Expression) : list Parameter_ :=
  filter (fun p => negb (dict_has p lits)) (unique (operand_parameters e)).

(** "find params related to each other" *)
Definition param_eqs_of (lits : dict Literal) (es : list Expression) : EquivalenceClasses :=
  fold_left
    (fun acc e => if constrained e then EC_add_eq (free_parameters lits e) acc else acc)
    es (EC_new []).

(** The set comprehension [p_modules] *)
Definition p_modules_of (g : DesignGraph) (modules : list Module_) (p_eq : list Parameter_)
    : list Module_ :=
  unique (flat_map (fun p => match parent_module g p with
                             | Some m => if mem m modules then [m] else []
                             | None => []
                             end) p_eq).

(** "find modules that are dependent on each other" *)
Definition module_eqs_of (g : DesignGraph) (modules : list Module_)
    (param_classes : list (list Parameter_)) : EquivalenceClasses :=
  fold_left (fun acc p_eq => EC_add_eq (p_modules_of g modules p_eq) acc)
            param_classes (EC_new modules).

Definition find_independent_groups_slow (g : DesignGraph) (modules : list Module_)
    : Result (list (list Module_)) :=
  rbind (literal_pass g modules) (fun lits =>
    let param_eqs := param_eqs_of lits (nodes_of_type_ConstrainableExpression g modules) in
    Ok (EC_get (module_eqs_of g modules (EC_get param_eqs)))).

(** The graphs [m_graphs] of one module on the fast path. *)
Definition module_graphs (g : DesignGraph) (state : ReusableState) (m : Module_)
    : Result (list Graph) :=
  match pickable_parameters g m with
  | None => Err TraitNotFound
  | Some params => Ok (get_graphs g (unique (map (map_forward state) params)))
  end.

(** [graph_to_m[gr].add(m)] on a [defaultdict(set)] *)
Definition graph_to_m_add (gr : Graph) (m : Module_) (d : dict (list Module_))
    : dict (list Module_) :=
  match dict_get gr d with
  | Some ms => dict_set gr (if mem m ms then ms else ms ++ [m]) d
  | None => dict_set gr [m] d
  end.

(** The loop over the modules on the fast path. *)
Fixpoint collect_graphs (g : DesignGraph) (state : ReusableState) (ms : list Module_)
    (graphs : EquivalenceClasses) (graph_to_m : dict (list Module_))
    : Result (EquivalenceClasses * dict (list Module_)) :=
  match ms with
  | [] => Ok (graphs, graph_to_m)
  | m :: r =>
      rbind (module_graphs g state m) (fun m_graphs =>
        collect_graphs g state r
          (EC_add_eq m_graphs graphs)
          (fold_left (fun d gr => graph_to_m_add gr m d) m_graphs graph_to_m))
  end.

(** [{m for g in gg for m in graph_to_m[g]}]; indexing the [defaultdict] at a
    graph without an entry gives the empty set. *)
Definition modules_of_graphs (graph_to_m : dict (list Module_)) (gg : list Graph)
    : list Module_ :=
  unique (flat_map (fun gr => match dict_get gr graph_to_m with
                              | Some ms => ms
                              | None => []
                              end) gg).

Definition find_independent_groups_fast (g : DesignGraph) (state : ReusableState)
    (modules : list Module_) : Result (list (list Module_)) :=
  rbind (collect_graphs g state modules (EC_new []) []) (fun gm =>
    Ok (map (modules_of_graphs (snd gm)) (EC_get (fst gm)))).

Definition find_independent_groups (modules : list Module_) (g : DesignGraph)
    (solver : Solver) : Result (list (list Module_)) :=
  let modules := unique modules in
  match (if is_DefaultSolver solver then reusable_state solver else None) with
  | None => find_independent_groups_slow g modules
  | Some state => find_independent_groups_fast g state modules
  end.

(** *** The relations the grouper is specified by *)

(** Two parameters occur, unpinned, in one enforced constraint, or are joined
    by a chain of such occurrences. *)
Inductive param_linked (lits : dict Literal) (es : list Expression)
    : Parameter_ -> Parameter_ -> Prop :=
| param_linked_expr e p q :
    In e es -> constrained e = true ->
    In p (free_parameters lits e) -> In q (free_parameters lits e) ->
    param_linked lits es p q
| param_linked_trans p q r :
    param_linked lits es p q -> param_linked lits es q r ->
    param_linked lits es p r.

(** Two modules of the input own linked parameters, or are joined by a chain
    of modules that do. *)
Inductive module_linked (g : DesignGraph) (modules : list Module_)
    (lits : dict Literal) (es : list Expression) : Module_ -> Module_ -> Prop :=
| module_linked_param p q m m' :
    In m modules -> In m' modules ->
    parent_module g p = Some m -> parent_module g q = Some m' ->
    param_linked lits es p q ->
    module_linked g modules lits es m m'
| module_linked_trans m1 m2 m3 :
    module_linked g modules lits es m1 m2 ->
    module_linked g modules lits es m2 m3 ->
    module_linked g modules lits es m1 m3.

(** A module takes part in an enforced constraint through a parameter it
    owns directly and that is not pinned to a literal. *)
Definition participates (g : DesignGraph) (lits : dict Literal)
    (es : list Expression) (m : Module_) : Prop :=
  exists e p, In e es /\ constrained e = true /\
              In p (free_parameters lits e) /\ parent_module g p = Some m.

(** The claim's reading, before the exclusion of pinned parameters: two
    modules own parameters that are operands of one enforced [Is]. *)
Definition joined_by_enforced_equality (g : DesignGraph) (es : list Expression)
    (m m' : Module_) : Prop :=
  exists e p q, In e es /\ is_Is e = true /\ constrained e = true /\
                In p (operand_parameters e) /\ In q (operand_parameters e) /\
                parent_module g p = Some m /\ parent_module g q = Some m'.

(** The groups form a partition of the modules. *)
Definition is_partition_of (groups : list (list Module_)) (modules : list Module_) : Prop :=
  NoDup (List.concat groups) /\
  (forall m, In m (List.concat groups) <-> In m modules) /\
  (forall grp, In grp groups -> grp <> []).

(** ** The resolution driver *)

Section Driver.
(** The mutable state a run acts on: the design (traits, attached parts,
    constraints) together with the solver. *)
Variable World : Type.
(** What the catalog offers for a module. *)
Variable Part : Type.

(** A call either returns in a new state, raises, or (for the loop, which
    is run with a bound on its rounds) has not finished within the bound. *)
Inductive Outcome (A : Type) : Type :=
| Return (a : A) (w : World)
| Raise (e : Exception)
| OutOfFuel.
Arguments Return {A} a w.
Arguments Raise {A} e.
Arguments OutOfFuel {A}.

Definition M (A : Type) : Type := World -> Outcome A.

Definition ret {A} (a : A) : M A := fun w => Return a w.

Definition bind {A B} (c : M A) (k : A -> M B) : M B :=
  fun w => match c w with
           | Return a w' => k a w'
           | Raise e => Raise e
           | OutOfFuel => OutOfFuel
           end.

Definition raise {A} (e : Exception) : M A := fun _ => Raise e.

(** Reading the current state. *)
Definition gets {A} (f : World -> A) : M A := fun w => Return (f w) w.

Definition lift {A} (r : Result A) : M A :=
  match r with
  | Ok a => ret a
  | Err e => raise e
  end.

(** [try: c  except: handler]: the handler sees the exception and either
    gives the exception to raise in its place or lets it pass ([None]). *)
Definition try_except {A} (c : M A) (handler : Exception -> option Exception) : M A :=
  fun w => match c w with
           | Raise e => match handler e with
                        | Some e' => Raise e'
                        | None => Raise e
                        end
           | o => o
           end.

Notation "x <- c ;; k" := (bind c (fun x => k))
  (at level 61, c at next level, right associativity).
Notation "c ;;; k" := (bind c (fun _ => k))
  (at level 61, right associativity).

(** [for x in xs: body(x)] *)
Fixpoint for_each {A} (xs : list A) (body : A -> M unit) : M unit :=
  match xs with
  | [] => ret tt
  | x :: r => body x ;;; for_each r body
  end.

(** The collaborators of the driver: module traits, the catalog layer
    ([faebryk.libs.picker.api.picker_lib]) and the solver. *)
Record Collaborators : Type := mkCollaborators {
  has_part_picked : World -> Module_ -> bool;
  is_pickable_by_part_number : World -> Module_ -> bool;
  is_pickable_by_supplier_id : World -> Module_ -> bool;
  _find_modules : Tree -> M (dict (list Part));
  attach_single_no_check : Module_ -> Part -> M unit;
  (** the list of picks and [allow_not_deducible] *)
  check_and_attach_candidates : list (Module_ * Part) -> bool -> M unit;
  get_candidates : Tree -> M (dict (list Part));
  (** [solver.update_superset_cache] on the given modules *)
  update_superset_cache : list Module_ -> M unit;
  (** the design graph and the solver as [find_independent_groups] reads them *)
  design_graph : World -> DesignGraph;
  solver_of : World -> Solver
}.

Variable C : Collaborators.

(** A call that returns or raises. *)
Definition returns {A} (c : M A) : Prop := forall w, c w <> OutOfFuel.

(** The collaborators called by the grouped pass return or raise. *)
Definition collaborators_return : Prop :=
  (forall t, returns (get_candidates C t)) /\
  (forall ms, returns (update_superset_cache C ms)) /\
  (forall m p, returns (attach_single_no_check C m p)).

(** [tree, _ = update_pick_tree(tree)] in the current state *)
Definition pruned (tree : Tree) : M Tree :=
  gets (fun w => fst (update_pick_tree (has_part_picked C w) tree)).

(** The explicit pass: lines 355-367. *)
Definition explicit_pass (tree : Tree) : M Tree :=
  explicit_modules <-
    gets (fun w => filter (fun m => is_pickable_by_part_number C w m
                                    || is_pickable_by_supplier_id C w m)
                          (tree_keys tree)) ;;
  explicit_parts <- _find_modules C (_list_to_hack_tree explicit_modules) ;;
  for_each explicit_parts
    (fun mp => match snd mp with
               | [part] => attach_single_no_check C (fst mp) part
               | _ => raise AssertionError
               end) ;;;
  match explicit_parts with
  | [] => ret tree
  | _ => pruned tree
  end.

(** The inner function [_get_candidates]. *)
Definition _get_candidates (_tree : Tree) : M (dict (list Part)) :=
  try_except (update_superset_cache C (tree_keys _tree))
    (fun e => match as_Contradiction e with
              | Some msg => Some (PickErrorRaised (MkPickError msg (tree_keys _tree)))
              | None => None
              end) ;;;
  get_candidates C _tree.

(** [{m: parts[m][0] for m in modules}] *)
Fixpoint first_parts (parts : dict (list Part)) (modules : list Module_)
    : Result (list (Module_ * Part)) :=
  match modules with
  | [] => Ok []
  | m :: r =>
      match dict_get m parts with
      | None => Err KeyError
      | Some [] => Err IndexError
      | Some (p :: _) => rbind (first_parts parts r) (fun rest => Ok ((m, p) :: rest))
      end
  end.

(** The inner function [_get_single_candidate]. *)
Definition _get_single_candidate (modules : list Module_) : M (dict Part) :=
  parts <- _get_candidates (_list_to_hack_tree modules) ;;
  picks <- lift (first_parts parts modules) ;;
  ret (dict_of_items picks).

(** [[(module, parts[0]) for module, parts in candidates.items() if len(parts) == 1]] *)
Definition single_part_modules_of (candidates : dict (list Part)) : list (Module_ * Part) :=
  flat_map (fun mp => match snd mp with
                      | [part] => [(fst mp, part)]
                      | _ => []
                      end) candidates.

(** The singleton heuristic: lines 418-444.  Returns the tree and the
    candidates the grouped pass starts from. *)
Definition singleton_pass (tree : Tree) (candidates : dict (list Part))
    : M (Tree * dict (list Part)) :=
  let single_part_modules := single_part_modules_of candidates in
  match single_part_modules with
  | [] => ret (tree, candidates)
  | _ =>
      try_except (check_and_attach_candidates C single_part_modules true)
        (fun e =>
           match as_Contradiction e with
           | Some msg =>
               Some (PickErrorRaised
                       (MkPickError
                          ("Could not pick all explicitly-specified parts."
                           ++ " Likely contradicting constraints: " ++ msg)%string
                          (map fst single_part_modules)))
           | None =>
               match as_NotCompatible_or_NotDeducible e with
               | Some msg =>
                   Some (PickErrorRaised
                           (MkPickError
                              ("Could not pick all explicitly-specified parts: " ++ msg)%string
                              (map fst single_part_modules)))
               | None => None
               end
           end) ;;;
      tree <- pruned tree ;;
      candidates <- _get_candidates tree ;;
      ret (tree, candidates)
  end.

(** "heuristic: pick singleton groups first" *)
Definition select_groups (groups : list (list Module_)) : list (list Module_) :=
  match filter (fun grp => Nat.eqb (List.length grp) 1) groups with
  | [] => groups
  | singleton_groups => singleton_groups
  end.

(** [[next(iter(g)) for g in groups]] *)
Fixpoint group_heads_of (groups : list (list Module_)) : Result (list Module_) :=
  match groups with
  | [] => Ok []
  | [] :: _ => Err StopIteration
  | (m :: _) :: r => rbind (group_heads_of r) (fun hs => Ok (m :: hs))
  end.

(** The groups of a round and their heads: lines 453-460. *)
Definition round_groups (candidates : dict (list Part)) : M (list (list Module_)) :=
  groups <- (fun w => lift (find_independent_groups (keys candidates)
                              (design_graph C w) (solver_of C w)) w) ;;
  ret (select_groups groups).

(** One round of the grouped slow pass: the body of the [while] loop,
    lines 453-477. *)
Definition slow_pick_round (tree : Tree) (candidates : dict (list Part))
    : M (Tree * dict (list Part)) :=
  groups <- round_groups candidates ;;
  group_heads <- lift (group_heads_of groups) ;;
  parts <-
    try_except (_get_single_candidate group_heads)
      (fun e => match as_Contradiction e with
                | Some msg =>
                    Some (PickErrorRaised
                            (MkPickError
                               ("Contradiction in system."
                                ++ "Unfixable due to lack of backtracking." ++ msg)%string
                               []))
                | None => None
                end) ;;
  for_each parts (fun mp => attach_single_no_check C (fst mp) (snd mp)) ;;;
  tree <- pruned tree ;;
  ret (tree, filter (fun mc => negb (mem (fst mc) group_heads)) candidates).

(** [while candidates: ...], run for at most [fuel] rounds. *)
Fixpoint slow_pick_loop (fuel : nat) (tree : Tree) (candidates : dict (list Part))
    : M unit :=
  match candidates with
  | [] => ret tt
  | _ =>
      match fuel with
      | 0 => fun _ => OutOfFuel
      | S fuel' =>
          tc <- slow_pick_round tree candidates ;;
          slow_pick_loop fuel' (fst tc) (snd tc)
      end
  end.

(** Final verification: lines 486-489. *)
Definition final_verification (tree_backup : list Module_) : M unit :=
  try_except (update_superset_cache C tree_backup)
    (fun e => match as_Contradiction e with
              | Some msg => Some (PickErrorRaised (PickVerificationError msg tree_backup))
              | None => None
              end).

(** The passes between the backup of the tree and the final verification. *)
Definition picking_passes (fuel : nat) (tree : Tree) : M unit :=
  candidates <- _get_candidates tree ;;
  tc <- singleton_pass tree candidates ;;
  slow_pick_loop fuel (fst tc) (snd tc).

Definition pick_topologically (fuel : nat) (tree : Tree) : M unit :=
  tree <- explicit_pass tree ;;
  let tree_backup := set_of (tree_keys tree) in
  picking_passes fuel tree ;;;
  final_verification tree_backup.
End Driver.

Arguments Return {World A} a w.
Arguments Raise {World A} e.
Arguments OutOfFuel {World A}.

(** ** A small executable world

    Concrete collaborators on which the driver can be run: the state is the
    list of modules that have a part attached, a part is a catalog number,
    and a scenario fixes the catalog and says when the solver or the catalog
    refuses. *)

Record Scenario : Type := mkScenario {
  (** modules carrying [is_pickable_by_part_number] *)
  sc_explicit : list Module_;
  (** the ordered candidates of a module *)
  sc_catalog : Module_ -> list nat;
  sc_graph : DesignGraph;
  sc_solver : Solver;
  (** [update_superset_cache]: given the modules with a part and the
      modules to refresh, the text of the contradiction, if any *)
  sc_refresh : list Module_ -> list Module_ -> option string;
  (** [get_candidates]: given the modules asked for, the text of the
      contradiction raised by the catalog layer, if any *)
  sc_lookup : list Module_ -> option string;
  (** [check_and_attach_candidates]: the exception of a failing batch, if any *)
  sc_batch : list Module_ -> option Exception
}.

Definition SimWorld : Type := list Module_.

Definition sim_candidates (sc : Scenario) (tree : Tree) : dict (list nat) :=
  dict_of_items (map (fun m => (m, sc_catalog sc m)) (tree_keys tree)).

Definition sim (sc : Scenario) : Collaborators SimWorld nat :=
  mkCollaborators SimWorld nat
    (fun w m => mem m w)
    (fun _ m => mem m (sc_explicit sc))
    (fun _ _ => false)
    (fun tree w => Return (sim_candidates sc tree) w)
    (fun m _ w => Return tt (m :: w))
    (fun picks _ w =>
       match sc_batch sc (map fst picks) with
       | Some e => Raise e
       | None => Return tt (map fst picks ++ w)
       end)
    (fun tree w =>
       match sc_lookup sc (tree_keys tree) with
       | Some msg => Raise (Contradiction msg)
       | None => Return (sim_candidates sc tree) w
       end)
    (fun modules w =>
       match sc_refresh sc w modules with
       | Some msg => Raise (Contradiction msg)
       | None => Return tt w
       end)
    (fun _ => sc_graph sc)
    (fun _ => sc_solver sc).

(** A design without constraints, read by a solver without reusable state. *)
Definition no_constraints : DesignGraph :=
  mkDesignGraph (fun _ => []) (fun _ => None) (fun _ => Some []) (fun o => o).

Definition plain_solver : Solver := mkSolver false None.

(** A flat tree over the given modules. *)
Definition flat_tree (modules : list Module_) : Tree := _list_to_hack_tree modules.

(** Modules 0 and 1 own parameters 10 and 11, tied by one enforced [Is]. *)
Definition tied_pair : DesignGraph :=
  mkDesignGraph
    (fun _ => [mkExpression true true [OperandOperatable 10; OperandOperatable 11] [10; 11]])
    (fun p => match p with 10 => Some 0 | 11 => Some 1 | _ => None end)
    (fun m => match m with 0 => Some [10] | 1 => Some [11] | _ => Some [] end)
    (fun o => o).

(** As [tied_pair], with parameter 10 also pinned to the literal 5. *)
Definition tied_pair_pinned : DesignGraph :=
  mkDesignGraph
    (fun _ => [mkExpression true true [OperandOperatable 10; OperandOperatable 11] [10; 11];
               mkExpression true true [OperandOperatable 10; OperandLiteral 5] [10]])
    (fun p => match p with 10 => Some 0 | 11 => Some 1 | _ => None end)
    (fun m => match m with 0 => Some [10] | 1 => Some [11] | _ => Some [] end)
    (fun o => o).

(** A default solver that kept its state; the state maps every parameter to
    itself. *)
Definition cached_solver : Solver :=
  mkSolver true (Some (mkReusableState (fun p => p))).

(** Module 0 carries [is_pickable_by_type] with an empty parameter mapping. *)
Definition no_parameters : DesignGraph :=
  mkDesignGraph (fun _ => []) (fun _ => None) (fun _ => Some []) (fun o => o).

(** Two tied modules with two candidates each, nothing ever refused. *)
Definition scenario_tied : Scenario :=
  mkScenario [] (fun m => [2 * m; 2 * m + 1]) tied_pair plain_solver
    (fun _ _ => None) (fun _ => None) (fun _ => None).

(** As [scenario_tied], but the catalog layer meets a contradiction when it
    is asked for module 0 alone. *)
Definition scenario_lookup_contradiction : Scenario :=
  mkScenario [] (fun m => [2 * m; 2 * m + 1]) tied_pair plain_solver
    (fun _ _ => None)
    (fun ms => match ms with [0] => Some "no part fits" | _ => None end)
    (fun _ => None).

(** As [scenario_tied], but the solver meets a contradiction when it
    refreshes module 0 alone. *)
Definition scenario_refresh_contradiction : Scenario :=
  mkScenario [] (fun m => [2 * m; 2 * m + 1]) tied_pair plain_solver
    (fun _ ms => match ms with [0] => Some "empty range" | _ => None end)
    (fun _ => None) (fun _ => None).

(** Module 0 has an explicit part number, module 1 one candidate; the solver
    meets a contradiction once module 1 has its part. *)
Definition scenario_explicit : Scenario :=
  mkScenario [0] (fun m => [m]) no_constraints plain_solver
    (fun picked ms => if mem 1 picked && mem 1 ms then Some "conflict" else None)
    (fun _ => None) (fun _ => None).

(** Modules 0 and 1 have one candidate each and the batch is refused. *)
Definition scenario_batch (e : Exception) : Scenario :=
  mkScenario [] (fun m => [m]) no_constraints plain_solver
    (fun _ _ => None) (fun _ => None) (fun _ => Some e).

(** One module with two candidates and no picking parameter, and a solver
    that kept its state. *)
Definition scenario_cached : Scenario :=
  mkScenario [] (fun m => [2 * m; 2 * m + 1]) no_parameters cached_solver
    (fun _ _ => None) (fun _ => None) (fun _ => None).

(** As [tied_pair], with parameter 10 pinned to 1 and parameter 11 to 2. *)
Definition tied_pair_conflict : DesignGraph :=
  mkDesignGraph
    (fun _ => [mkExpression true true [OperandOperatable 10; OperandOperatable 11] [10; 11];
               mkExpression true true [OperandOperatable 10; OperandLiteral 1] [10];
               mkExpression true true [OperandOperatable 11; OperandLiteral 2] [11]])
    (fun p => match p with 10 => Some 0 | 11 => Some 1 | _ => None end)
    (fun m => match m with 0 => Some [10] | 1 => Some [11] | _ => Some [] end)
    (fun o => o).

(** Two candidates per module over [tied_pair_conflict]. *)
Definition scenario_conflict : Scenario :=
  mkScenario [] (fun m => [2 * m; 2 * m + 1]) tied_pair_conflict plain_solver
    (fun _ _ => None) (fun _ => None) (fun _ => None).

(** Module 0 has an explicit part number and the catalog offers two parts. *)
Definition scenario_ambiguous_explicit : Scenario :=
  mkScenario [0] (fun m => [2 * m; 2 * m + 1]) no_constraints plain_solver
    (fun _ _ => None) (fun _ => None) (fun _ => None).

(** Module 0 has two candidates, module 1 none. *)
Definition scenario_exhausted : Scenario :=
  mkScenario [] (fun m => match m with 0 => [7; 8] | _ => [] end)
    no_constraints plain_solver
    (fun _ _ => None) (fun _ => None) (fun _ => None).

(** Modules 0 and 1 carry [is_pickable_by_type] with the parameters 10 and
    11, module 2 does not carry the trait. *)
Definition one_without_trait : DesignGraph :=
  mkDesignGraph (fun _ => []) (fun _ => None)
    (fun m => match m with 0 => Some [10] | 1 => Some [11] | _ => None end)
    (fun o => o).

(* ================================================================== *)
(** * Part II: properties                                              *)
(* ================================================================== *)

(** ** Dictionaries *)

Section DictFacts.
Context {V : Type}.
Implicit Types (d items : dict V) (k : nat) (v : V).

Lemma mem_In x l : mem x l = true <-> In x l.
Proof.
  unfold mem. rewrite existsb_exists. split.
  - intros (y & Hy & E). apply Nat.eqb_eq in E. now subst.
  - intros H. exists x. split; [assumption | apply Nat.eqb_refl].
Qed.

Lemma mem_false x l : mem x l = false <-> ~ In x l.
Proof.
  rewrite <- mem_In. destruct (mem x l); split; congruence.
Qed.

Lemma dict_set_keys k v d x :
  In x (keys (dict_set k v d)) <-> x = k \/ In x (keys d).
Proof.
  induction d as [|[k' v'] r IH]; simpl.
  - intuition.
  - destruct (Nat.eqb_spec k k') as [->|N]; simpl.
    + intuition.
    + rewrite IH. intuition.
Qed.

Lemma dict_set_NoDup k v d : NoDup (keys d) -> NoDup (keys (dict_set k v d)).
Proof.
  induction d as [|[k' v'] r IH]; simpl; intros H.
  - constructor; [intros [] | constructor].
  - inversion_clear H as [|? ? Hn Hr].
    destruct (Nat.eqb_spec k k') as [->|N]; simpl.
    + now constructor.
    + constructor; [| now apply IH].
      fold (keys (dict_set k v r)). rewrite dict_set_keys.
      intros [E | Hin]; [congruence | contradiction].
Qed.

Lemma dict_set_In k v d x y :
  In (x, y) (dict_set k v d) -> (x = k /\ y = v) \/ In (x, y) d.
Proof.
  induction d as [|[k' v'] r IH]; simpl.
  - intros [E | []]. inversion E. now left.
  - destruct (Nat.eqb_spec k k') as [->|N]; simpl.
    + intros [E | H]; [inversion E; now left | right; now right].
    + intros [E | H]; [right; now left |].
      destruct (IH H) as [L | R]; [now left | right; now right].
Qed.

Lemma dict_set_fresh k v d : ~ In k (keys d) -> dict_set k v d = d ++ [(k, v)].
Proof.
  induction d as [|[k' v'] r IH]; simpl; intros H; [reflexivity |].
  destruct (Nat.eqb_spec k k') as [->|N].
  - exfalso. apply H. now left.
  - f_equal. apply IH. intros Hin. apply H. now right.
Qed.

Lemma dict_update_keys items d x :
  In x (keys (dict_update d items)) <-> In x (keys d) \/ In x (keys items).
Proof.
  unfold dict_update. revert d.
  induction items as [|[k v] r IH]; simpl; intros d.
  - intuition.
  - rewrite IH, dict_set_keys. intuition.
Qed.

Lemma dict_update_NoDup items d :
  NoDup (keys d) -> NoDup (keys (dict_update d items)).
Proof.
  unfold dict_update. revert d.
  induction items as [|[k v] r IH]; simpl; intros d H; [assumption |].
  apply IH. now apply dict_set_NoDup.
Qed.

Lemma dict_update_In items d x y :
  In (x, y) (dict_update d items) -> In (x, y) d \/ In (x, y) items.
Proof.
  unfold dict_update. revert d.
  induction items as [|[k v] r IH]; simpl; intros d H; [now left |].
  destruct (IH _ H) as [Hd | Hr]; [| right; now right].
  destruct (dict_set_In _ _ _ _ _ Hd) as [[-> ->] | Hd']; [right; now left | now left].
Qed.

Lemma dict_update_fresh items d :
  NoDup (keys (d ++ items)) -> dict_update d items = d ++ items.
Proof.
  unfold dict_update. revert d.
  induction items as [|[k v] r IH]; simpl; intros d H.
  - now rewrite app_nil_r.
  - rewrite dict_set_fresh.
    + rewrite IH; rewrite <- app_assoc; [reflexivity | exact H].
    + unfold keys in H. rewrite map_app in H. simpl in H.
      apply NoDup_remove_2 in H. intros Hin. apply H.
      apply in_or_app. now left.
Qed.

Lemma dict_of_items_keys items x :
  In x (keys (dict_of_items items)) <-> In x (keys items).
Proof. unfold dict_of_items. rewrite dict_update_keys. simpl. intuition. Qed.

Lemma dict_of_items_NoDup items : NoDup (keys (dict_of_items items)).
Proof. apply dict_update_NoDup. constructor. Qed.

Lemma dict_of_items_In items x y :
  In (x, y) (dict_of_items items) -> In (x, y) items.
Proof. intros H. destruct (dict_update_In _ _ _ _ H) as [[] | H']. exact H'. Qed.

Lemma dict_of_items_id items : NoDup (keys items) -> dict_of_items items = items.
Proof. intros H. unfold dict_of_items. now rewrite dict_update_fresh. Qed.
End DictFacts.

(** ** Pick tree pruning *)

Lemma Tree_ind_items (P : Tree -> Prop) :
  (forall items, Forall (fun kv => P (snd kv)) items -> P (mkTree items)) ->
  forall t, P t.
Proof.
  intros H. fix IH 1. intros [items]. apply H.
  induction items as [|[k v] r IHr]; constructor; [apply IH | exact IHr].
Qed.

Lemma tree_modules_cons k v r :
  tree_modules (mkTree ((k, v) :: r)) = k :: tree_modules v ++ tree_modules (mkTree r).
Proof. reflexivity. Qed.

Lemma tree_wf_cons k v r :
  tree_wf (mkTree ((k, v) :: r)) ->
  ~ In k (keys r) /\ tree_wf v /\ tree_wf (mkTree r).
Proof.
  simpl. intros [Hnd [Hv Hr]]. inversion_clear Hnd. repeat split; assumption.
Qed.

Section PickTreeFacts.
Variable has_part_picked : Module_ -> bool.

Local Abbreviation kept := (kept_items has_part_picked).

Lemma kept_cons k v r :
  kept ((k, v) :: r) =
  if negb (has_part_picked k) && negb (snd (update_pick_tree has_part_picked v))
  then (k, fst (update_pick_tree has_part_picked v)) :: kept r
  else kept r.
Proof.
  unfold kept_items. simpl.
  destruct (negb (has_part_picked k)
            && negb (snd (update_pick_tree has_part_picked v))); reflexivity.
Qed.

Lemma update_pick_tree_nonempty kv r :
  update_pick_tree has_part_picked (mkTree (kv :: r)) =
  (Tree_of (kept (kv :: r)), tree_is_empty (Tree_of (kept (kv :: r)))).
Proof.
  destruct kv as [k0 v0].
  assert (E : forall l,
    (fix go (l : dict Tree) : list (Module_ * Tree) :=
       match l with
       | [] => []
       | (k, v) :: r =>
           if negb (has_part_picked k)
              && negb (snd (update_pick_tree has_part_picked v))
           then (k, fst (update_pick_tree has_part_picked v)) :: go r
           else go r
       end) l = kept l).
  { induction l as [|[k v] l IHl]; [reflexivity |].
    rewrite kept_cons, IHl. reflexivity. }
  rewrite kept_cons. cbn [update_pick_tree]. rewrite E.
  match goal with |- (if ?b then _ else _) = _ => destruct b end; reflexivity.
Qed.

Lemma kept_unresolved items :
  Forall (fun kv => update_pick_tree has_part_picked (snd kv) = (snd kv, false)) items ->
  (forall m, In m (keys items) -> has_part_picked m = false) ->
  kept items = items.
Proof.
  induction 1 as [|[k v] r Hv _ IH]; intros Hk; [reflexivity |].
  rewrite kept_cons. simpl in Hv. rewrite Hv. simpl.
  rewrite (Hk k (or_introl eq_refl)). simpl. f_equal.
  apply IH. intros m Hm. apply Hk. now right.
Qed.

Lemma kept_resolved items :
  (forall m, In m (keys items) -> has_part_picked m = true) ->
  kept items = [].
Proof.
  induction items as [|[k v] r IH]; intros Hk; [reflexivity |].
  rewrite kept_cons.
  rewrite (Hk k (or_introl eq_refl)). simpl.
  apply IH. intros m Hm. apply Hk. now right.
Qed.

Lemma update_pick_tree_unresolved tree :
  tree_wf tree ->
  (forall m, In m (tree_modules tree) -> has_part_picked m = false) ->
  update_pick_tree has_part_picked tree = (tree, false).
Proof.
  induction tree as [items IH] using Tree_ind_items. intros Hwf Hm.
  destruct items as [|[k v] r]; [reflexivity |].
  rewrite update_pick_tree_nonempty.
  assert (Hkept : kept ((k, v) :: r) = (k, v) :: r).
  { apply kept_unresolved.
    - clear - IH Hwf Hm.
      revert IH Hwf Hm. generalize ((k, v) :: r) as items. clear k v r.
      induction items as [|[k v] r IHr]; intros IH Hwf Hm; constructor.
      + simpl. inversion_clear IH as [|? ? Hv Hr]. simpl in Hv.
        apply tree_wf_cons in Hwf. apply Hv; [tauto |].
        intros m Hin. apply Hm. rewrite tree_modules_cons.
        right. apply in_or_app. now left.
      + inversion_clear IH as [|? ? Hv Hr].
        apply tree_wf_cons in Hwf. apply IHr; [assumption | tauto |].
        intros m Hin. apply Hm. rewrite tree_modules_cons.
        right. apply in_or_app. now right.
    - clear - Hm. revert Hm. generalize ((k, v) :: r) as items.
      induction items as [|[k' v'] r' IHr]; intros Hm m Hin; [destruct Hin |].
      destruct Hin as [<- | Hin].
      + apply Hm. rewrite tree_modules_cons. now left.
      + apply IHr; [| assumption]. intros m' Hm'. apply Hm.
        rewrite tree_modules_cons. right. apply in_or_app. now right. }
  rewrite Hkept. unfold Tree_of.
  rewrite dict_of_items_id by (destruct Hwf as [Hnd _]; exact Hnd).
  reflexivity.
Qed.

Lemma tree_keys_modules tree m : In m (tree_keys tree) -> In m (tree_modules tree).
Proof.
  destruct tree as [items]. unfold tree_keys. simpl tree_items.
  induction items as [|[k v] r IH]; [intros [] |].
  rewrite tree_modules_cons. intros [<- | Hin]; [now left |].
  right. apply in_or_app. right. now apply IH.
Qed.

Lemma update_pick_tree_top_resolved tree :
  tree <> mkTree [] ->
  (forall m, In m (tree_keys tree) -> has_part_picked m = true) ->
  update_pick_tree has_part_picked tree = (mkTree [], true).
Proof.
  destruct tree as [[|kv r]]; intros Hne Hm; [congruence |].
  rewrite update_pick_tree_nonempty, kept_resolved by exact Hm.
  reflexivity.
Qed.

(** C6, as amended: pruning a tree in which no module has a part returns
    the tree unchanged with the flag false, and pruning a tree that is not
    empty and in which every module has a part returns the empty tree with
    the flag true. *)
Theorem update_pick_tree_idempotence :
  (forall tree,
      tree_wf tree ->
      (forall m, In m (tree_modules tree) -> has_part_picked m = false) ->
      update_pick_tree has_part_picked tree = (tree, false)) /\
  (forall tree,
      tree <> mkTree [] ->
      (forall m, In m (tree_modules tree) -> has_part_picked m = true) ->
      update_pick_tree has_part_picked tree = (mkTree [], true)).
Proof.
  split.
  - exact update_pick_tree_unresolved.
  - intros tree Hne Hm. apply update_pick_tree_top_resolved; [assumption |].
    intros m Hin. apply Hm. now apply tree_keys_modules.
Qed.

(** C10: pruning the empty tree returns the empty tree with the flag
    false. *)
Theorem update_pick_tree_empty :
  update_pick_tree has_part_picked (mkTree []) = (mkTree [], false).
Proof. reflexivity. Qed.
End PickTreeFacts.

(** A tree with a nested level, used to instantiate the statements. *)
Lemma update_pick_tree_idempotence_witness :
  update_pick_tree (fun _ => false) (mkTree [(0, mkTree [(2, mkTree [])]); (1, mkTree [])])
  = (mkTree [(0, mkTree [(2, mkTree [])]); (1, mkTree [])], false)
  /\ update_pick_tree (fun _ => true) (mkTree [(0, mkTree [(2, mkTree [])]); (1, mkTree [])])
     = (mkTree [], true).
Proof.
  split.
  - apply (proj1 (update_pick_tree_idempotence (fun _ => false))).
    + simpl. repeat split; repeat constructor; simpl; intuition discriminate.
    + reflexivity.
  - apply (proj2 (update_pick_tree_idempotence (fun _ => true))).
    + discriminate.
    + reflexivity.
Defined.

(** C6 as stated fails on the empty tree: all of its modules (there are none)
    have a part, and pruning it reports "not fully resolved". *)
Lemma update_pick_tree_all_resolved_counterexample :
  ~ (forall (has_part_picked : Module_ -> bool) (tree : Tree),
        (forall m, In m (tree_modules tree) -> has_part_picked m = true) ->
        update_pick_tree has_part_picked tree = (mkTree [], true)).
Proof.
  intros H. specialize (H (fun _ => true) (mkTree [])).
  simpl in H. discriminate H. intros m [].
Qed.

(** ** Flattening of aggregated errors *)

Lemma PickError_ind_children (P : PickError -> Prop) :
  (forall msg ms, P (MkPickError msg ms)) ->
  (forall m, P (MkPickErrorNotImplemented m)) ->
  (forall msg ms, P (MkPickVerificationError msg ms)) ->
  (forall m children,
      Forall (fun kv => P (snd kv)) children -> P (MkPickErrorChildren m children)) ->
  forall e, P e.
Proof.
  intros H1 H2 H3 H4. fix IH 1. intros [msg ms | m | msg ms | m children].
  - apply H1.
  - apply H2.
  - apply H3.
  - apply H4. induction children as [|[k v] r IHr]; constructor; [apply IH | exact IHr].
Qed.

Lemma get_all_children_unfold module children :
  get_all_children (MkPickErrorChildren module children) =
  dict_union (dict_of_items (leaf_items children))
             (dict_of_items (nested_items children)).
Proof.
  assert (E : forall l,
    (fix nested (l : dict PickError) : list (Module_ * PickError) :=
       match l with
       | [] => []
       | (_, v) :: r =>
           (if is_PickErrorChildren v then get_all_children v else []) ++ nested r
       end) l = nested_items l).
  { induction l as [|[k v] l IHl]; [reflexivity |].
    unfold nested_items. simpl. f_equal. exact IHl. }
  cbn [get_all_children]. rewrite E. reflexivity.
Qed.

Lemma in_keys {V} (d : dict V) k : In k (keys d) <-> exists v, In (k, v) d.
Proof.
  unfold keys. rewrite in_map_iff. split.
  - intros ([k' v] & E & H). simpl in E. subst. now exists v.
  - intros (v & H). now exists (k, v).
Qed.

Lemma in_nested_items children m v :
  In (m, v) (nested_items children) <->
  exists k c, In (k, c) children /\ is_PickErrorChildren c = true
              /\ In (m, v) (get_all_children c).
Proof.
  unfold nested_items. rewrite in_flat_map. split.
  - intros ([k c] & Hin & H). simpl in H.
    destruct (is_PickErrorChildren c) eqn:E; [| destruct H].
    exists k, c. auto.
  - intros (k & c & Hin & E & H). exists (k, c). simpl. rewrite E. auto.
Qed.

Lemma in_leaf_items children m v :
  In (m, v) (leaf_items children) <->
  In (m, v) children /\ is_PickErrorChildren v = false.
Proof.
  unfold leaf_items. rewrite filter_In. simpl. rewrite negb_true_iff. reflexivity.
Qed.

Lemma get_all_children_leaves e :
  forall m v, In (m, v) (get_all_children e) -> is_PickErrorChildren v = false.
Proof.
  induction e as [msg ms | m0 | msg ms | module children IH] using PickError_ind_children;
    try (intros m v []).
  intros m v. rewrite get_all_children_unfold. intros H.
  apply dict_update_In in H. destruct H as [H | H]; apply dict_of_items_In in H.
  - now apply in_leaf_items in H.
  - apply in_nested_items in H. destruct H as (k & c & Hin & _ & H).
    rewrite Forall_forall in IH. exact (IH (k, c) Hin m v H).
Qed.

Lemma get_all_children_NoDup e : NoDup (keys (get_all_children e)).
Proof.
  destruct e; try constructor.
  rewrite get_all_children_unfold. apply dict_update_NoDup, dict_of_items_NoDup.
Qed.

Lemma get_all_children_sound e :
  forall m, In m (keys (get_all_children e)) -> implicated e m.
Proof.
  induction e as [msg ms | m0 | msg ms | module children IH] using PickError_ind_children;
    try (intros m []).
  intros m. rewrite get_all_children_unfold. unfold dict_union.
  rewrite dict_update_keys, !dict_of_items_keys, !in_keys.
  intros [(v & H) | (v & H)].
  - apply in_leaf_items in H. destruct H as [Hin E].
    now apply implicated_here with v.
  - apply in_nested_items in H. destruct H as (k & c & Hin & E & H).
    apply implicated_below with k c; [assumption .. |].
    rewrite Forall_forall in IH. apply (IH (k, c) Hin).
    apply in_keys. now exists v.
Qed.

Lemma get_all_children_complete e m :
  implicated e m -> In m (keys (get_all_children e)).
Proof.
  induction 1 as [module children m v Hin E | module children k c m Hin E _ IH];
    rewrite get_all_children_unfold; unfold dict_union;
    rewrite dict_update_keys, !dict_of_items_keys, !in_keys.
  - left. exists v. apply in_leaf_items. auto.
  - right. apply in_keys in IH. destruct IH as (v & Hv).
    exists v. apply in_nested_items. exists k, c. auto.
Qed.

(** C7: however deeply the children mapping nests aggregates, the flattened
    view holds terminal causes only, every implicated module is a key of it
    exactly once, and it has no other keys. *)
Theorem get_all_children_flat module children :
  let e := MkPickErrorChildren module children in
  (forall m v, In (m, v) (get_all_children e) -> is_PickErrorChildren v = false) /\
  (forall m, implicated e m ->
             count_occ Nat.eq_dec (keys (get_all_children e)) m = 1) /\
  (forall m, In m (keys (get_all_children e)) -> implicated e m).
Proof.
  intros e. split; [| split].
  - apply get_all_children_leaves.
  - intros m H. apply NoDup_count_occ'.
    + apply get_all_children_NoDup.
    + now apply get_all_children_complete.
  - apply get_all_children_sound.
Qed.

(** Module 7 is implicated twice, two levels apart; it is one key. *)
Lemma get_all_children_flat_witness :
  count_occ Nat.eq_dec
    (keys (get_all_children
             (MkPickErrorChildren 0
                [(7, MkPickError "a" [7]);
                 (1, MkPickErrorChildren 1
                       [(2, MkPickErrorChildren 2 [(7, MkPickErrorNotImplemented 7)]);
                        (3, MkPickError "b" [3])])]))) 7 = 1.
Proof.
  apply (proj1 (proj2 (get_all_children_flat 0 _))).
  apply implicated_here with (MkPickError "a" [7]); [now left | reflexivity].
Defined.

(** ** Equivalence classes *)

Section ECFacts.
Implicit Types (cs : EquivalenceClasses) (vs c : list nat) (x y v : nat).

Lemma unique_filter_In x y l :
  In x (filter (fun z => negb (Nat.eqb z y)) l) <-> x <> y /\ In x l.
Proof.
  rewrite filter_In, negb_true_iff, Nat.eqb_neq. tauto.
Qed.

Lemma unique_In x l : In x (unique l) <-> In x l.
Proof.
  induction l as [|a r IH]; simpl; [tauto |].
  rewrite unique_filter_In, IH.
  destruct (Nat.eq_dec x a) as [->|N]; intuition congruence.
Qed.

Lemma unique_NoDup l : NoDup (unique l).
Proof.
  induction l as [|a r IH]; simpl; constructor.
  - rewrite unique_filter_In. tauto.
  - now apply NoDup_filter.
Qed.

Lemma concat_singletons l : List.concat (map (fun x => [x]) l) = l.
Proof. induction l as [|a r IH]; simpl; [reflexivity | now rewrite IH]. Qed.

Lemma EC_new_concat base : List.concat (EC_new base) = unique base.
Proof. apply concat_singletons. Qed.

Lemma EC_new_wf base : EC_wf (EC_new base).
Proof.
  split.
  - rewrite EC_new_concat. apply unique_NoDup.
  - unfold EC_new. apply Forall_forall. intros c Hc.
    apply in_map_iff in Hc. destruct Hc as (x & <- & _). discriminate.
Qed.

Lemma EC_known_In v cs : EC_known v cs = true <-> In v (List.concat cs).
Proof.
  unfold EC_known. rewrite existsb_exists, in_concat.
  split; intros (c & H1 & H2); exists c; [rewrite mem_In in H2 | rewrite mem_In]; tauto.
Qed.

Lemma EC_touches_spec vs c :
  EC_touches vs c = true <-> exists v, In v vs /\ In v c.
Proof.
  unfold EC_touches. rewrite existsb_exists.
  split; intros (v & H1 & H2); exists v; [rewrite mem_In in H2 | rewrite mem_In]; tauto.
Qed.

Lemma EC_register_concat cs v x :
  In x (List.concat (EC_register cs v)) <-> x = v \/ In x (List.concat cs).
Proof.
  unfold EC_register. destruct (EC_known v cs) eqn:E.
  - apply EC_known_In in E. intuition congruence.
  - rewrite concat_app, in_app_iff. simpl. intuition.
Qed.

Lemma EC_register_wf cs v : EC_wf cs -> EC_wf (EC_register cs v).
Proof.
  unfold EC_register. intros [Hnd Hne]. destruct (EC_known v cs) eqn:E.
  - now split.
  - split.
    + rewrite concat_app. simpl.
      apply NoDup_app; [assumption | repeat constructor; intros [] |].
      intros x Hx [<- | []].
      apply EC_known_In in Hx. congruence.
    + apply Forall_app. split; [assumption |]. repeat constructor. discriminate.
Qed.

Lemma EC_register_keeps cs v c : In c cs -> In c (EC_register cs v).
Proof.
  unfold EC_register. destruct (EC_known v cs); [tauto |].
  intros H. apply in_or_app. now left.
Qed.

Lemma EC_register_all_concat vs cs x :
  In x (List.concat (fold_left EC_register vs cs)) <-> In x vs \/ In x (List.concat cs).
Proof.
  revert cs. induction vs as [|v r IH]; simpl; intros cs; [tauto |].
  rewrite IH, EC_register_concat. intuition.
Qed.

Lemma EC_register_all_wf vs cs : EC_wf cs -> EC_wf (fold_left EC_register vs cs).
Proof.
  revert cs. induction vs as [|v r IH]; simpl; intros cs H; [assumption |].
  apply IH. now apply EC_register_wf.
Qed.

Lemma EC_register_all_keeps vs cs c : In c cs -> In c (fold_left EC_register vs cs).
Proof.
  revert cs. induction vs as [|v r IH]; simpl; intros cs H; [assumption |].
  apply IH. now apply EC_register_keeps.
Qed.

Lemma concat_split (f : list nat -> bool) (l : list (list nat)) :
  Permutation
    (List.concat (filter (fun c => negb (f c)) l ++ [List.concat (filter f l)]))
    (List.concat l).
Proof.
  rewrite concat_app. simpl. rewrite app_nil_r.
  induction l as [|c r IH]; simpl; [constructor |].
  destruct (f c); simpl.
  - rewrite Permutation_app_swap_app. now apply Permutation_app_head.
  - rewrite <- app_assoc. now apply Permutation_app_head.
Qed.

Lemma EC_add_eq_concat vs cs x :
  In x (List.concat (EC_add_eq vs cs)) <-> In x vs \/ In x (List.concat cs).
Proof.
  unfold EC_add_eq. destruct vs as [|v r]; [simpl; tauto |].
  set (vs := v :: r).
  rewrite <- EC_register_all_concat.
  split; apply Permutation_in;
    [| apply Permutation_sym]; apply concat_split.
Qed.

Lemma EC_add_eq_merged vs cs v :
  In v vs ->
  In v (List.concat (filter (EC_touches vs) (fold_left EC_register vs cs))).
Proof.
  intros Hv.
  assert (H : In v (List.concat (fold_left EC_register vs cs)))
    by (apply EC_register_all_concat; now left).
  apply in_concat in H. destruct H as (c & Hc & Hvc).
  apply in_concat. exists c. split; [| assumption].
  apply filter_In. split; [assumption |].
  apply EC_touches_spec. now exists v.
Qed.

Lemma EC_add_eq_wf vs cs : EC_wf cs -> EC_wf (EC_add_eq vs cs).
Proof.
  intros H. unfold EC_add_eq. destruct vs as [|v r]; [assumption |].
  set (vs := v :: r).
  destruct (EC_register_all_wf vs cs H) as [Hnd Hne]. split.
  - eapply Permutation_NoDup; [apply Permutation_sym, concat_split | exact Hnd].
  - apply Forall_app. split.
    + rewrite Forall_forall in *. intros c Hc. apply filter_In in Hc. now apply Hne.
    + repeat constructor. intros E.
      assert (Hv : In v (List.concat (filter (EC_touches vs) (fold_left EC_register vs cs))))
        by (apply EC_add_eq_merged; now left).
      rewrite E in Hv. destruct Hv.
Qed.

(** After [add_eq] on the values [vs], all of [vs] lie in one class. *)
Lemma EC_add_eq_joins vs cs x y :
  In x vs -> In y vs -> same_class (EC_add_eq vs cs) x y.
Proof.
  intros Hx Hy. unfold EC_add_eq. destruct vs as [|v r]; [destruct Hx |].
  set (vs := v :: r) in *.
  exists (List.concat (filter (EC_touches vs) (fold_left EC_register vs cs))).
  split; [apply in_or_app; right; now left |].
  split; now apply EC_add_eq_merged.
Qed.

(** [add_eq] never separates. *)
Lemma EC_add_eq_mono vs cs x y :
  same_class cs x y -> same_class (EC_add_eq vs cs) x y.
Proof.
  intros (c & Hc & Hx & Hy). unfold EC_add_eq. destruct vs as [|v r]; [now exists c |].
  set (vs := v :: r).
  pose proof (EC_register_all_keeps vs cs c Hc) as Hc1.
  destruct (EC_touches vs c) eqn:E.
  - exists (List.concat (filter (EC_touches vs) (fold_left EC_register vs cs))).
    split; [apply in_or_app; right; now left |].
    split; apply in_concat; exists c; (split; [apply filter_In; auto | assumption]).
  - exists c. split; [| auto].
    apply in_or_app. left. apply filter_In. split; [assumption | now rewrite E].
Qed.

(** A class of one element that is not among the values stays as it is. *)
Lemma EC_add_eq_untouched vs cs m :
  In [m] cs -> ~ In m vs -> In [m] (EC_add_eq vs cs).
Proof.
  intros Hc Hm. unfold EC_add_eq. destruct vs as [|v r]; [assumption |].
  set (vs := v :: r) in *.
  apply in_or_app. left. apply filter_In.
  split; [now apply EC_register_all_keeps |].
  apply negb_true_iff. destruct (EC_touches vs [m]) eqn:E; [| reflexivity].
  apply EC_touches_spec in E. destruct E as (w & Hw & [<- | []]). contradiction.
Qed.

Lemma same_class_unique_class cs c1 c2 y :
  NoDup (List.concat cs) -> In c1 cs -> In c2 cs -> In y c1 -> In y c2 -> c1 = c2.
Proof.
  induction cs as [|c r IH]; simpl; intros Hnd H1 H2 Hy1 Hy2; [destruct H1 |].
  assert (Hdis : forall z d, In z c -> In d r -> In z d -> False).
  { intros z d Hz Hd Hzd. apply NoDup_app_remove_l in Hnd as Hr.
    clear IH H1 H2. revert Hnd. clear - Hz Hd Hzd.
    intros Hnd. induction c as [|a c' IHc]; [destruct Hz |].
    simpl in Hnd. inversion_clear Hnd as [|? ? Hna Hnd'].
    destruct Hz as [-> | Hz]; [| now apply IHc].
    apply Hna. apply in_or_app. right. apply in_concat. now exists d. }
  destruct H1 as [<- | H1], H2 as [<- | H2].
  - reflexivity.
  - exfalso. eapply Hdis; eauto.
  - exfalso. eapply Hdis; eauto.
  - apply IH; try assumption. now apply NoDup_app_remove_l in Hnd.
Qed.

Lemma same_class_trans cs x y z :
  NoDup (List.concat cs) -> same_class cs x y -> same_class cs y z -> same_class cs x z.
Proof.
  intros Hnd (c1 & H1 & Hx & Hy) (c2 & H2 & Hy' & Hz).
  assert (c1 = c2) by (eapply same_class_unique_class; eauto). subst c2.
  exists c1. auto.
Qed.

Lemma same_class_sym cs x y : same_class cs x y -> same_class cs y x.
Proof. intros (c & H & Hx & Hy). exists c. auto. Qed.

(** *** Runs of [add_eq] *)

Lemma EC_add_all_wf vss cs : EC_wf cs -> EC_wf (EC_add_all vss cs).
Proof.
  unfold EC_add_all. revert cs.
  induction vss as [|vs r IH]; simpl; intros cs H; [assumption |].
  apply IH. now apply EC_add_eq_wf.
Qed.

Lemma EC_add_all_concat vss cs x :
  In x (List.concat (EC_add_all vss cs)) <->
  In x (List.concat cs) \/ exists vs, In vs vss /\ In x vs.
Proof.
  unfold EC_add_all. revert cs.
  induction vss as [|vs r IH]; simpl; intros cs.
  - split; [now left | intros [H | (vs & [] & _)]; assumption].
  - rewrite IH, EC_add_eq_concat. split.
    + intros [[H | H] | (ws & Hw & Hx)].
      * right. exists vs. auto.
      * now left.
      * right. exists ws. auto.
    + intros [H | (ws & [<- | Hw] & Hx)].
      * left. now right.
      * left. now left.
      * right. exists ws. auto.
Qed.

Lemma EC_add_all_mono vss cs x y :
  same_class cs x y -> same_class (EC_add_all vss cs) x y.
Proof.
  unfold EC_add_all. revert cs.
  induction vss as [|vs r IH]; simpl; intros cs H; [assumption |].
  apply IH. now apply EC_add_eq_mono.
Qed.

Lemma EC_add_all_joins vss cs vs x y :
  In vs vss -> In x vs -> In y vs -> same_class (EC_add_all vss cs) x y.
Proof.
  unfold EC_add_all. revert cs.
  induction vss as [|ws r IH]; simpl; intros cs Hvs Hx Hy; [destruct Hvs |].
  destruct Hvs as [-> | Hvs].
  - apply (EC_add_all_mono r). now apply EC_add_eq_joins.
  - now apply IH.
Qed.

Lemma EC_add_all_untouched vss cs m :
  In [m] cs -> (forall vs, In vs vss -> ~ In m vs) -> In [m] (EC_add_all vss cs).
Proof.
  unfold EC_add_all. revert cs.
  induction vss as [|ws r IH]; simpl; intros cs Hc Hm; [assumption |].
  apply IH.
  - apply EC_add_eq_untouched; [assumption | apply Hm; now left].
  - intros vs Hvs. apply Hm. now right.
Qed.
End ECFacts.

(** ** The equivalence grouper, constraint-walking path *)

Section GrouperFacts.
Variable g : DesignGraph.

Lemma collect_aliases_error es aliased lits e :
  collect_aliases es aliased lits = Err e -> e = KeyError.
Proof.
  revert aliased lits. induction es as [|x r IH]; simpl; intros aliased lits H.
  - discriminate.
  - destruct (constrained x); simpl in H; [| now apply IH in H].
    destruct (operand_literals x); [now apply IH in H |].
    destruct (operatable_operands x); [congruence | now apply IH in H].
Qed.

Lemma unify_literals_error groups lits e :
  unify_literals groups lits = Err e -> e = ContradictionByLiteral "".
Proof.
  revert lits. induction groups as [|grp r IH]; simpl; intros lits H.
  - discriminate.
  - destruct (lits_eq_of lits grp) as [|l [|l' ls]];
      [now apply IH in H | now apply IH in H | congruence].
Qed.

(** The literal pass raises nothing but the contradiction of two literals
    forced equal, or the [KeyError] of [set.pop] on an enforced [Is] that
    has a literal operand and no other. *)
Lemma literal_pass_error modules e :
  literal_pass g modules = Err e -> e = ContradictionByLiteral "" \/ e = KeyError.
Proof.
  unfold literal_pass, rbind.
  destruct (collect_aliases _ _ _) as [[aliased lits] | e'] eqn:E.
  - intros H. left. now apply unify_literals_error in H.
  - intros H. right. inversion H. subst. now apply collect_aliases_error in E.
Qed.

Lemma param_eqs_of_run lits es :
  param_eqs_of lits es =
  EC_add_all (map (free_parameters lits) (filter constrained es)) (EC_new []).
Proof.
  unfold param_eqs_of, EC_add_all. generalize (EC_new []).
  induction es as [|e r IH]; simpl; intros acc; [reflexivity |].
  destruct (constrained e); simpl; apply IH.
Qed.

Lemma module_eqs_of_run modules classes :
  module_eqs_of g modules classes =
  EC_add_all (map (p_modules_of g modules) classes) (EC_new modules).
Proof.
  unfold module_eqs_of, EC_add_all. generalize (EC_new modules).
  induction classes as [|c r IH]; simpl; intros acc; [reflexivity | apply IH].
Qed.

Lemma p_modules_of_In modules p_eq m :
  In m (p_modules_of g modules p_eq) <->
  exists p, In p p_eq /\ parent_module g p = Some m /\ In m modules.
Proof.
  unfold p_modules_of. rewrite unique_In, in_flat_map. split.
  - intros (p & Hp & H). exists p. split; [assumption |].
    destruct (parent_module g p) as [m' |]; [| destruct H].
    destruct (mem m' modules) eqn:E; [| destruct H].
    destruct H as [<- | []]. apply mem_In in E. auto.
  - intros (p & Hp & Hpar & Hm). exists p. split; [assumption |].
    rewrite Hpar. apply mem_In in Hm. rewrite Hm. now left.
Qed.

Lemma param_eqs_of_wf lits es : EC_wf (param_eqs_of lits es).
Proof. rewrite param_eqs_of_run. apply EC_add_all_wf, EC_new_wf. Qed.

Lemma param_linked_same_class lits es p q :
  param_linked lits es p q -> same_class (param_eqs_of lits es) p q.
Proof.
  induction 1 as [e p q He Hc Hp Hq | p q r _ IH1 _ IH2].
  - rewrite param_eqs_of_run.
    apply EC_add_all_joins with (free_parameters lits e); [| assumption ..].
    apply in_map, filter_In. auto.
  - eapply same_class_trans; eauto. apply param_eqs_of_wf.
Qed.

Lemma param_eqs_of_member lits es p :
  In p (List.concat (param_eqs_of lits es)) ->
  exists e, In e es /\ constrained e = true /\ In p (free_parameters lits e).
Proof.
  rewrite param_eqs_of_run, EC_add_all_concat. intros [[] | (vs & Hvs & Hp)].
  apply in_map_iff in Hvs. destruct Hvs as (e & <- & He).
  apply filter_In in He. exists e. tauto.
Qed.

Section Groups.
Variables (modules : list Module_) (lits : dict Literal) (es : list Expression).

Let groups := module_eqs_of g modules (param_eqs_of lits es).

Lemma groups_wf : EC_wf groups.
Proof. unfold groups. rewrite module_eqs_of_run. apply EC_add_all_wf, EC_new_wf. Qed.

Lemma groups_cover m : In m (List.concat groups) <-> In m modules.
Proof.
  unfold groups. rewrite module_eqs_of_run, EC_add_all_concat, EC_new_concat, unique_In.
  split; [| now left].
  intros [H | (vs & Hvs & Hm)]; [assumption |].
  apply in_map_iff in Hvs. destruct Hvs as (c & <- & _).
  apply p_modules_of_In in Hm. destruct Hm as (_ & _ & _ & H). exact H.
Qed.

Lemma groups_partition : is_partition_of groups modules.
Proof.
  destruct groups_wf as [Hnd Hne]. split; [assumption | split].
  - apply groups_cover.
  - now apply Forall_forall.
Qed.

Lemma groups_linked m m' :
  module_linked g modules lits es m m' -> same_class groups m m'.
Proof.
  induction 1 as [p q m m' Hm Hm' Hp Hq Hpq | m1 m2 m3 _ IH1 _ IH2].
  - apply param_linked_same_class in Hpq. destruct Hpq as (c & Hc & Hpc & Hqc).
    unfold groups. rewrite module_eqs_of_run.
    apply EC_add_all_joins with (p_modules_of g modules c).
    + now apply in_map.
    + apply p_modules_of_In. exists p. auto.
    + apply p_modules_of_In. exists q. auto.
  - eapply same_class_trans; eauto. apply groups_wf.
Qed.

Lemma groups_singleton m :
  In m modules -> ~ participates g lits es m -> In [m] groups.
Proof.
  intros Hm Hnp. unfold groups. rewrite module_eqs_of_run.
  apply EC_add_all_untouched.
  - unfold EC_new. apply in_map_iff. exists m. split; [reflexivity |].
    now apply unique_In.
  - intros vs Hvs Hin. apply in_map_iff in Hvs. destruct Hvs as (c & <- & Hc).
    apply p_modules_of_In in Hin. destruct Hin as (p & Hp & Hpar & _).
    apply Hnp.
    destruct (param_eqs_of_member lits es p) as (e & He & Hce & Hpe).
    { apply in_concat. now exists c. }
    exists e, p. auto.
Qed.
End Groups.

Lemma module_linked_unique modules lits es m m' :
  module_linked g modules lits es m m' ->
  module_linked g (unique modules) lits es m m'.
Proof.
  induction 1 as [p q m m' Hm Hm' Hp Hq Hpq | m1 m2 m3 _ IH1 _ IH2].
  - apply module_linked_param with p q; try assumption; now apply unique_In.
  - eapply module_linked_trans; eauto.
Qed.

Lemma find_independent_groups_slow_path modules solver :
  is_DefaultSolver solver = false \/ reusable_state solver = None ->
  find_independent_groups modules g solver
  = find_independent_groups_slow g (unique modules).
Proof.
  intros Hslow. unfold find_independent_groups.
  destruct Hslow as [-> | H]; [reflexivity |].
  rewrite H. now destruct (is_DefaultSolver solver).
Qed.

(** Whatever the constraint-walking path returns is a partition of its
    input. *)
Lemma find_independent_groups_slow_partition modules solver groups :
  is_DefaultSolver solver = false \/ reusable_state solver = None ->
  find_independent_groups modules g solver = Ok groups ->
  is_partition_of groups modules.
Proof.
  intros Hslow. rewrite find_independent_groups_slow_path by assumption.
  unfold find_independent_groups_slow, rbind, EC_get.
  destruct (literal_pass g (unique modules)) as [lits | e]; [| discriminate].
  intros H. inversion H. subst groups.
  destruct (groups_partition (unique modules) lits
              (nodes_of_type_ConstrainableExpression g (unique modules)))
    as (H1 & H2 & H3).
  split; [assumption | split; [| assumption]].
  intros m. rewrite H2. apply unique_In.
Qed.

(** C4, as amended: on the constraint-walking path the grouper either
    raises from its literal pass, or returns a partition of the input set
    in which modules joined by a chain of enforced constraints over
    directly owned, unpinned parameters share a group, and a module that
    takes part in no such constraint is a group of its own. *)
Theorem find_independent_groups_partition modules solver :
  is_DefaultSolver solver = false \/ reusable_state solver = None ->
  let es := nodes_of_type_ConstrainableExpression g (unique modules) in
  match literal_pass g (unique modules) with
  | Ok lits =>
      exists groups,
        find_independent_groups modules g solver = Ok groups /\
        is_partition_of groups modules /\
        (forall m m', module_linked g modules lits es m m' -> same_class groups m m') /\
        (forall m, In m modules -> ~ participates g lits es m -> In [m] groups)
  | Err e =>
      find_independent_groups modules g solver = Err e /\
      (e = ContradictionByLiteral "" \/ e = KeyError)
  end.
Proof.
  intros Hslow es.
  rewrite find_independent_groups_slow_path by assumption.
  unfold find_independent_groups_slow.
  destruct (literal_pass g (unique modules)) as [lits | e] eqn:E; simpl.
  - eexists. split; [reflexivity |]. unfold EC_get. fold es. split; [| split].
    + destruct (groups_partition (unique modules) lits es) as (H1 & H2 & H3).
      split; [assumption | split; [| assumption]].
      intros m. rewrite H2. apply unique_In.
    + intros m m' H. apply groups_linked. now apply module_linked_unique.
    + intros m Hm Hnp. apply groups_singleton; [now apply unique_In | assumption].
  - split; [reflexivity |]. now apply literal_pass_error in E.
Qed.
End GrouperFacts.

(** Modules 0 and 1 are tied by an enforced [Is]; module 2 stands alone. *)
Lemma find_independent_groups_partition_witness :
  exists groups,
    find_independent_groups [0; 1; 2] tied_pair plain_solver = Ok groups /\
    is_partition_of groups [0; 1; 2] /\
    same_class groups 0 1 /\ In [2] groups.
Proof.
  pose proof (find_independent_groups_partition tied_pair [0; 1; 2] plain_solver
                (or_introl eq_refl)) as H.
  simpl in H. destruct H as (groups & Hg & Hp & Hl & Hs).
  exists groups. split; [exact Hg | split; [exact Hp | split]].
  - apply Hl.
    apply module_linked_param with 10 11;
      [simpl; auto | simpl; auto | reflexivity | reflexivity |].
    eapply param_linked_expr; [now left | reflexivity | simpl; auto | simpl; auto].
  - apply Hs; [simpl; auto |].
    intros (e & p & [<- | []] & _ & Hp' & Hpar). simpl in Hp'.
    destruct Hp' as [<- | [<- | []]]; discriminate Hpar.
Defined.

(** C4 as stated fails where a parameter is pinned to a literal: modules 0
    and 1 own the two operands of an enforced [Is], and are returned in
    different groups. *)
Lemma find_independent_groups_pinned_counterexample :
  joined_by_enforced_equality tied_pair_pinned
    (nodes_of_type_ConstrainableExpression tied_pair_pinned [0; 1]) 0 1 /\
  find_independent_groups [0; 1] tied_pair_pinned plain_solver = Ok [[0]; [1]] /\
  ~ same_class [[0]; [1]] 0 1.
Proof.
  split; [| split].
  - eexists _, 10, 11. simpl. repeat split; [left; reflexivity | simpl; auto ..].
  - reflexivity.
  - intros (c & [<- | [<- | []]] & H0 & H1); simpl in *; intuition discriminate.
Qed.

(** C5, evaluated where the two paths part: module 0 carries
    [is_pickable_by_type] without parameters.  With the reusable state the
    module is in no group; without it the module is a group of its own. *)
Theorem find_independent_groups_cached_path_drops_module :
  find_independent_groups [0] no_parameters cached_solver = Ok [] /\
  find_independent_groups [0] no_parameters plain_solver = Ok [[0]].
Proof. split; reflexivity. Qed.

(** ** The resolution driver *)

Section DriverFacts.
Variables (World Part : Type) (C : Collaborators World Part).

Local Abbreviation M := (M World).

Lemma bind_Return {A B} (c : M A) (k : A -> M B) w b w' :
  bind World c k w = Return b w' ->
  exists a w1, c w = Return a w1 /\ k a w1 = Return b w'.
Proof.
  unfold bind. destruct (c w) as [a w1 | e |]; try discriminate.
  intros H. now exists a, w1.
Qed.

Lemma lift_Return {A} (r : Result A) w a w' :
  lift World r w = Return a w' -> r = Ok a /\ w' = w.
Proof.
  destruct r as [x | e]; simpl; unfold ret, raise; intros H; inversion H; auto.
Qed.

Lemma ret_Return {A} (x : A) w a w' :
  ret World x w = Return a w' -> a = x /\ w' = w.
Proof. unfold ret. intros H. inversion H. auto. Qed.

(** *** What a round of the grouped pass removes *)

Lemma keys_filter_heads (candidates : dict (list Part)) heads m :
  In m (keys (filter (fun mc => negb (mem (fst mc) heads)) candidates)) <->
  In m (keys candidates) /\ ~ In m heads.
Proof.
  rewrite !in_keys. split.
  - intros (v & H). apply filter_In in H. destruct H as [H E]. simpl in E.
    apply negb_true_iff, mem_false in E. split; [now exists v | assumption].
  - intros [(v & H) Hn]. exists v. apply filter_In. split; [assumption |].
    simpl. now apply negb_true_iff, mem_false.
Qed.

Lemma select_groups_singletons groups :
  (exists grp, In grp groups /\ List.length grp = 1) ->
  forall grp, In grp (select_groups groups) -> List.length grp = 1.
Proof.
  intros (s & Hs & Hl) grp. unfold select_groups.
  destruct (filter (fun grp => Nat.eqb (List.length grp) 1) groups) as [|a r] eqn:E.
  - exfalso. assert (H : In s []); [| destruct H].
    rewrite <- E. apply filter_In. split; [assumption | now apply Nat.eqb_eq].
  - rewrite <- E. intros H. apply filter_In in H. now apply Nat.eqb_eq.
Qed.

Lemma select_groups_incl groups grp :
  In grp (select_groups groups) -> In grp groups.
Proof.
  unfold select_groups.
  destruct (filter (fun grp => Nat.eqb (List.length grp) 1) groups) as [|a r] eqn:E;
    [tauto |].
  rewrite <- E. intros H. now apply filter_In in H.
Qed.

Lemma group_heads_of_In groups heads m :
  group_heads_of groups = Ok heads ->
  In m heads -> exists grp, In grp groups /\ hd_error grp = Some m.
Proof.
  revert heads. induction groups as [|grp r IH]; simpl; intros heads H Hm.
  - inversion H. subst. destruct Hm.
  - destruct grp as [|x xs]; [discriminate |].
    destruct (group_heads_of r) as [hs |]; [| discriminate].
    simpl in H. inversion H. subst.
    destruct Hm as [<- | Hm].
    + exists (x :: xs). auto.
    + destruct (IH hs eq_refl Hm) as (grp & ? & ?). exists grp. auto.
Qed.

Lemma group_heads_of_singletons groups heads :
  group_heads_of groups = Ok heads ->
  (forall grp, In grp groups -> List.length grp = 1) ->
  forall grp m, In grp groups -> In m grp -> In m heads.
Proof.
  revert heads. induction groups as [|g0 r IH]; simpl; intros heads H Hs grp m Hg Hm.
  - destruct Hg.
  - destruct g0 as [|x xs]; [discriminate |].
    destruct (group_heads_of r) as [hs |]; [| discriminate].
    simpl in H. inversion H. subst.
    destruct Hg as [<- | Hg].
    + specialize (Hs (x :: xs) (or_introl eq_refl)).
      destruct xs; [| discriminate]. destruct Hm as [<- | []]. now left.
    + right. eapply IH; eauto.
Qed.

(** C1, as amended: a round removes from the candidates exactly the heads
    of the selected groups; the other modules of a selected group stay.
    When the grouper returns some group of one module only such groups are
    selected, and then every module of every selected group is removed. *)
Theorem slow_pick_round_removes_heads tree candidates w tree' candidates' w' :
  slow_pick_round World Part C tree candidates w = Return (tree', candidates') w' ->
  exists all_groups heads,
    find_independent_groups (keys candidates) (design_graph World Part C w)
                            (solver_of World Part C w) = Ok all_groups /\
    group_heads_of (select_groups all_groups) = Ok heads /\
    candidates' = filter (fun mc => negb (mem (fst mc) heads)) candidates /\
    (forall m, In m (keys candidates') <-> In m (keys candidates) /\ ~ In m heads) /\
    ((exists grp, In grp all_groups /\ List.length grp = 1) ->
     forall grp m, In grp (select_groups all_groups) -> In m grp ->
                   ~ In m (keys candidates')).
Proof.
  unfold slow_pick_round. intros H.
  apply bind_Return in H. destruct H as (groups & w1 & Hg & H).
  unfold round_groups in Hg.
  apply bind_Return in Hg. destruct Hg as (all_groups & w0 & Hf & Hsel).
  apply lift_Return in Hf. destruct Hf as [Hf ->].
  apply ret_Return in Hsel. destruct Hsel as [-> ->].
  apply bind_Return in H. destruct H as (heads & w2 & Hh & H).
  apply lift_Return in Hh. destruct Hh as [Hh ->].
  apply bind_Return in H. destruct H as (parts & w3 & _ & H).
  apply bind_Return in H. destruct H as (u & w4 & _ & H).
  apply bind_Return in H. destruct H as (t & w5 & _ & H).
  apply ret_Return in H. destruct H as [H _]. inversion H. subst tree' candidates'.
  exists all_groups, heads.
  split; [assumption | split; [assumption | split; [reflexivity | split]]].
  - intros m. apply keys_filter_heads.
  - intros Hex grp m Hgrp Hm Hin.
    apply keys_filter_heads in Hin. destruct Hin as [_ Hn]. apply Hn.
    eapply group_heads_of_singletons; eauto.
    now apply select_groups_singletons.
Qed.

(** *** The verification set *)

Lemma kept_keys has items k :
  In k (keys (kept_items has items)) -> In k (keys items) /\ has k = false.
Proof.
  rewrite !in_keys. unfold kept_items. intros (v & H).
  apply in_flat_map in H. destruct H as ([k' v'] & Hin & H). simpl in H.
  destruct (has k') eqn:E; simpl in H; [destruct H |].
  destruct (snd (update_pick_tree has v')); simpl in H; [destruct H |].
  destruct H as [H | []]. inversion H. subst. split; [now exists v' | assumption].
Qed.

Lemma update_pick_tree_keys has tree k :
  In k (tree_keys (fst (update_pick_tree has tree))) ->
  In k (tree_keys tree) /\ has k = false.
Proof.
  destruct tree as [[|kv r]]; [intros [] |].
  rewrite update_pick_tree_nonempty. unfold tree_keys, Tree_of.
  cbn [fst tree_items]. rewrite dict_of_items_keys. apply kept_keys.
Qed.

(** The tree the explicit pass hands on is the tree it was given, or that
    tree pruned in the state the pass leaves. *)
Lemma explicit_pass_tree tree w tree1 w1 :
  explicit_pass World Part C tree w = Return tree1 w1 ->
  tree1 = tree \/
  tree1 = fst (update_pick_tree (has_part_picked World Part C w1) tree).
Proof.
  unfold explicit_pass. intros H.
  apply bind_Return in H. destruct H as (ms & w0 & _ & H).
  apply bind_Return in H. destruct H as (parts & w2 & _ & H).
  apply bind_Return in H. destruct H as (u & w3 & _ & H).
  destruct parts.
  - apply ret_Return in H. left. tauto.
  - unfold pruned, gets in H. inversion H. now right.
Qed.

Lemma set_of_In xs x : In x (set_of xs) <-> In x xs.
Proof.
  unfold set_of. rewrite dict_of_items_keys. unfold keys.
  rewrite map_map. simpl. now rewrite map_id.
Qed.

(** C2, as amended: the final check is run over the top-level modules of
    the tree as the explicit pass leaves it, whatever the later passes
    prune; a contradiction there is raised as a [PickVerificationError]
    that names these modules.  They are modules of the tree the run was
    given, without those that have a part after an explicit pass that
    attached something. *)
Theorem final_verification_over_backup fuel tree w tree1 w1 w2 e msg :
  explicit_pass World Part C tree w = Return tree1 w1 ->
  picking_passes World Part C fuel tree1 w1 = Return tt w2 ->
  update_superset_cache World Part C (set_of (tree_keys tree1)) w2 = Raise e ->
  as_Contradiction e = Some msg ->
  pick_topologically World Part C fuel tree w
  = Raise (PickErrorRaised (PickVerificationError msg (set_of (tree_keys tree1)))) /\
  is_PickVerificationError (PickVerificationError msg (set_of (tree_keys tree1))) = true /\
  (forall m, In m (set_of (tree_keys tree1)) -> In m (tree_keys tree)) /\
  (tree1 = tree \/
   forall m, In m (set_of (tree_keys tree1)) ->
             has_part_picked World Part C w1 m = false).
Proof.
  intros Hexp Hpick Hver Hmsg. split; [| split; [reflexivity | split]].
  - unfold pick_topologically, bind. rewrite Hexp, Hpick.
    unfold final_verification, try_except. now rewrite Hver, Hmsg.
  - intros m Hm. rewrite set_of_In in Hm.
    destruct (explicit_pass_tree _ _ _ _ Hexp) as [-> | ->]; [assumption |].
    now apply update_pick_tree_keys in Hm.
  - destruct (explicit_pass_tree _ _ _ _ Hexp) as [-> | E]; [now left | right].
    intros m Hm. rewrite set_of_In in Hm. rewrite E in Hm.
    now apply update_pick_tree_keys in Hm.
Qed.

(** C9: when the batched attachment of the single-candidate modules fails
    with a contradiction, an incompatibility or a non-deducibility, the run
    ends with a [PickError] whose modules are the modules of the batch. *)
Theorem singleton_batch_failure_is_fatal fuel tree w tree1 w1 candidates w2 e msg :
  explicit_pass World Part C tree w = Return tree1 w1 ->
  _get_candidates World Part C tree1 w1 = Return candidates w2 ->
  single_part_modules_of Part candidates <> [] ->
  check_and_attach_candidates World Part C
    (single_part_modules_of Part candidates) true w2 = Raise e ->
  as_Contradiction e = Some msg \/ as_NotCompatible_or_NotDeducible e = Some msg ->
  exists message,
    pick_topologically World Part C fuel tree w
    = Raise (PickErrorRaised
               (MkPickError message (map fst (single_part_modules_of Part candidates)))).
Proof.
  intros Hexp Hcand Hne Hbatch Hkind.
  unfold pick_topologically, bind. rewrite Hexp.
  unfold picking_passes, bind. rewrite Hcand.
  unfold singleton_pass.
  remember (single_part_modules_of Part candidates) as single eqn:E.
  destruct single as [|s r]; [congruence |].
  unfold bind, try_except. rewrite Hbatch.
  destruct (as_Contradiction e) as [m1 |].
  - eexists. reflexivity.
  - destruct Hkind as [Hk | Hk]; [discriminate |]. rewrite Hk.
    eexists. reflexivity.
Qed.
(** *** Contradictions met in a round of the grouped pass *)

(** A contradiction of the solver refresh for the group heads is re-wrapped
    by [_get_candidates] and names the heads. *)
Lemma slow_pick_round_refresh_contradiction tree candidates w groups heads e msg :
  round_groups World Part C candidates w = Return groups w ->
  group_heads_of groups = Ok heads ->
  update_superset_cache World Part C (tree_keys (_list_to_hack_tree heads)) w = Raise e ->
  as_Contradiction e = Some msg ->
  slow_pick_round World Part C tree candidates w
  = Raise (PickErrorRaised (MkPickError msg (tree_keys (_list_to_hack_tree heads)))).
Proof.
  intros Hg Hh Hup Hmsg. unfold slow_pick_round, bind at 1. rewrite Hg.
  unfold bind at 1. rewrite Hh. simpl lift. unfold ret at 1.
  unfold bind at 1, try_except at 1, _get_single_candidate, bind at 1.
  unfold _get_candidates, bind at 1, try_except at 1.
  now rewrite Hup, Hmsg.
Qed.

(** A contradiction of the catalog layer for the group heads reaches the
    handler of the round, which names no module. *)
Lemma slow_pick_round_lookup_contradiction tree candidates w groups heads w1 e msg :
  round_groups World Part C candidates w = Return groups w ->
  group_heads_of groups = Ok heads ->
  update_superset_cache World Part C (tree_keys (_list_to_hack_tree heads)) w = Return tt w1 ->
  get_candidates World Part C (_list_to_hack_tree heads) w1 = Raise e ->
  as_Contradiction e = Some msg ->
  slow_pick_round World Part C tree candidates w
  = Raise (PickErrorRaised
             (MkPickError
                ("Contradiction in system."
                 ++ "Unfixable due to lack of backtracking." ++ msg)%string [])).
Proof.
  intros Hg Hh Hup Hget Hmsg. unfold slow_pick_round, bind at 1. rewrite Hg.
  unfold bind at 1. rewrite Hh. simpl lift. unfold ret at 1.
  unfold bind at 1, try_except at 1, _get_single_candidate, bind at 1.
  unfold _get_candidates, bind at 1, try_except at 1.
  now rewrite Hup, Hget, Hmsg.
Qed.

(** *** Progress of the grouped pass on the constraint-walking path *)

Lemma filter_shorter {A} (f : A -> bool) (l : list A) x :
  In x l -> f x = false -> List.length (filter f l) < List.length l.
Proof.
  induction l as [|a r IH]; simpl; intros Hin Hf; [destruct Hin |].
  destruct Hin as [-> | Hin].
  - rewrite Hf. pose proof (filter_length_le f r). lia.
  - destruct (f a); simpl; specialize (IH Hin Hf); lia.
Qed.

Lemma group_heads_of_nonempty groups heads grp :
  group_heads_of groups = Ok heads -> In grp groups ->
  exists h, In h heads /\ In h (List.concat groups).
Proof.
  destruct groups as [|[|x xs] r]; simpl; intros H Hin; [destruct Hin | discriminate |].
  destruct (group_heads_of r) as [hs |]; [| discriminate].
  simpl in H. inversion H. exists x. split; now left.
Qed.

Lemma select_groups_nonempty groups :
  groups <> [] -> exists grp, In grp (select_groups groups).
Proof.
  unfold select_groups. intros Hne.
  destruct (filter (fun grp => Nat.eqb (List.length grp) 1) groups) as [|a r].
  - destruct groups as [|a r]; [congruence |]. exists a. now left.
  - exists a. now left.
Qed.

(** On the constraint-walking path a round that returns leaves fewer
    candidates than it found. *)
Lemma slow_pick_round_decreases tree candidates w tree' candidates' w' :
  is_DefaultSolver (solver_of World Part C w) = false
  \/ reusable_state (solver_of World Part C w) = None ->
  candidates <> [] ->
  slow_pick_round World Part C tree candidates w = Return (tree', candidates') w' ->
  List.length candidates' < List.length candidates.
Proof.
  intros Hslow Hne H.
  unfold slow_pick_round in H.
  apply bind_Return in H. destruct H as (groups & w1 & Hg & H).
  unfold round_groups in Hg.
  apply bind_Return in Hg. destruct Hg as (all_groups & w0 & Hf & Hsel).
  apply lift_Return in Hf. destruct Hf as [Hf ->].
  apply ret_Return in Hsel. destruct Hsel as [-> ->].
  apply bind_Return in H. destruct H as (heads & w2 & Hh & H).
  apply lift_Return in Hh. destruct Hh as [Hh ->].
  apply bind_Return in H. destruct H as (parts & w3 & _ & H).
  apply bind_Return in H. destruct H as (u & w4 & _ & H).
  apply bind_Return in H. destruct H as (t & w5 & _ & H).
  apply ret_Return in H. destruct H as [H _]. inversion H. subst tree' candidates'.
  destruct (find_independent_groups_slow_partition _ _ _ _ Hslow Hf) as (_ & Hcov & _).
  assert (Hall : all_groups <> []).
  { intros ->. destruct candidates as [|[k v] r]; [congruence |].
    apply (proj2 (Hcov k)). now left. }
  destruct (select_groups_nonempty _ Hall) as (grp & Hgrp).
  destruct (group_heads_of_nonempty _ _ _ Hh Hgrp) as (h & Hh1 & Hh2).
  assert (Hk : In h (keys candidates)).
  { apply Hcov. apply in_concat in Hh2. destruct Hh2 as (c & Hc & Hhc).
    apply in_concat. exists c. split; [now apply select_groups_incl | assumption]. }
  apply in_keys in Hk. destruct Hk as (v & Hv).
  apply filter_shorter with (h, v); [assumption |].
  simpl. apply negb_false_iff. now apply mem_In.
Qed.

Lemma bind_returns {A B} (c : M A) (k : A -> M B) :
  returns World c -> (forall a, returns World (k a)) -> returns World (bind World c k).
Proof.
  intros Hc Hk w. unfold bind. specialize (Hc w).
  destruct (c w) as [a w1 | e |]; [apply Hk | discriminate | congruence].
Qed.

Lemma try_except_returns {A} (c : M A) handler :
  returns World c -> returns World (try_except World c handler).
Proof.
  intros Hc w. unfold try_except. specialize (Hc w).
  destruct (c w) as [a w1 | e |]; [discriminate | | congruence].
  destruct (handler e); discriminate.
Qed.

Lemma lift_returns {A} (r : Result A) : returns World (lift World r).
Proof. intros w. destruct r; discriminate. Qed.

Lemma ret_returns {A} (a : A) : returns World (ret World a).
Proof. intros w. discriminate. Qed.

Lemma for_each_returns {A} (xs : list A) (body : A -> M unit) :
  (forall x, returns World (body x)) -> returns World (for_each World xs body).
Proof.
  intros Hb. induction xs as [|x r IH]; [apply ret_returns |].
  simpl. apply bind_returns; [apply Hb | intros _; exact IH].
Qed.

Lemma slow_pick_round_returns tree candidates :
  collaborators_return World Part C ->
  returns World (slow_pick_round World Part C tree candidates).
Proof.
  intros (Hget & Hup & Hatt). unfold slow_pick_round.
  apply bind_returns.
  { unfold round_groups. apply bind_returns.
    - intros w. apply lift_returns.
    - intros groups. apply ret_returns. }
  intros groups. apply bind_returns; [apply lift_returns |].
  intros heads. apply bind_returns.
  { apply try_except_returns. unfold _get_single_candidate.
    apply bind_returns.
    - unfold _get_candidates. apply bind_returns.
      + apply try_except_returns, Hup.
      + intros _. apply Hget.
    - intros parts. apply bind_returns; [apply lift_returns |].
      intros picks. apply ret_returns. }
  intros parts. apply bind_returns.
  { apply for_each_returns. intros mp. apply Hatt. }
  intros _. apply bind_returns.
  - intros w. discriminate.
  - intros t. apply ret_returns.
Qed.

(** On the constraint-walking path the loop ends within as many rounds as
    there are candidates. *)
Lemma slow_pick_loop_terminates fuel tree candidates w :
  collaborators_return World Part C ->
  (forall w, is_DefaultSolver (solver_of World Part C w) = false
             \/ reusable_state (solver_of World Part C w) = None) ->
  List.length candidates <= fuel ->
  slow_pick_loop World Part C fuel tree candidates w <> OutOfFuel.
Proof.
  intros Hret Hslow. revert tree candidates w.
  induction fuel as [|fuel IH]; intros tree candidates w Hlen.
  - destruct candidates; [discriminate | simpl in Hlen; lia].
  - destruct candidates as [|c r] eqn:E; [discriminate |]. rewrite <- E in *.
    assert (Hne : candidates <> []) by (rewrite E; discriminate).
    replace (slow_pick_loop World Part C (S fuel) tree candidates)
      with (bind World (slow_pick_round World Part C tree candidates)
              (fun tc => slow_pick_loop World Part C fuel (fst tc) (snd tc)))
      by (rewrite E; reflexivity).
    unfold bind.
    pose proof (slow_pick_round_returns tree candidates Hret w) as Hround.
    destruct (slow_pick_round World Part C tree candidates w) as [[t c'] w' | e |] eqn:R;
      [| discriminate | congruence].
    apply IH. simpl.
    pose proof (slow_pick_round_decreases _ _ _ _ _ _ (Hslow w) Hne R). lia.
Qed.

(** With no candidates the loop body is not entered, whatever the bound. *)
Lemma slow_pick_loop_empty fuel tree w :
  slow_pick_loop World Part C fuel tree [] w = Return tt w.
Proof. destruct fuel; reflexivity. Qed.
End DriverFacts.

(** *** Runs in the executable world *)

(** A round on two tied modules: the grouper returns the one group [0; 1],
    its head 0 is removed and module 1 stays. *)
Lemma slow_pick_round_removes_heads_witness :
  exists all_groups heads,
    find_independent_groups [0; 1] tied_pair plain_solver = Ok all_groups /\
    group_heads_of (select_groups all_groups) = Ok heads /\
    [(1, [2; 3])] = filter (fun mc => negb (mem (fst mc) heads)) [(0, [0; 1]); (1, [2; 3])] /\
    (forall m, In m [1] <-> In m [0; 1] /\ ~ In m heads) /\
    ((exists grp, In grp all_groups /\ List.length grp = 1) ->
     forall grp m, In grp (select_groups all_groups) -> In m grp -> ~ In m [1]).
Proof.
  apply (slow_pick_round_removes_heads SimWorld nat (sim scenario_tied)
           (flat_tree [0; 1]) [(0, [0; 1]); (1, [2; 3])] []
           (mkTree [(1, mkTree [])]) [(1, [2; 3])] [0]).
  reflexivity.
Defined.

(** C1 as stated fails on two tied modules: the selected group is [0; 1],
    and after the round module 1 is still a candidate. *)
Lemma slow_pick_round_drops_group_counterexample :
  round_groups SimWorld nat (sim scenario_tied) [(0, [0; 1]); (1, [2; 3])] []
  = Return [[0; 1]] [] /\
  slow_pick_round SimWorld nat (sim scenario_tied)
    (flat_tree [0; 1]) [(0, [0; 1]); (1, [2; 3])] []
  = Return (mkTree [(1, mkTree [])], [(1, [2; 3])]) [0] /\
  In 1 [0; 1] /\ In 1 (keys [(1, [2; 3])]).
Proof. repeat split; simpl; auto. Qed.

(** A run with an explicit module 0 and a module 1 that the solver rejects
    at the end. *)
Lemma final_verification_over_backup_witness :
  pick_topologically SimWorld nat (sim scenario_explicit) 5 (flat_tree [0; 1]) []
  = Raise (PickErrorRaised (PickVerificationError "conflict" [1])) /\
  is_PickVerificationError (PickVerificationError "conflict" [1]) = true /\
  (forall m, In m [1] -> In m [0; 1]) /\
  (mkTree [(1, mkTree [])] = flat_tree [0; 1] \/
   forall m, In m [1] -> mem m [0] = false).
Proof.
  apply (final_verification_over_backup SimWorld nat (sim scenario_explicit) 5
           (flat_tree [0; 1]) [] (mkTree [(1, mkTree [])]) [0] [1; 0]
           (Contradiction "conflict") "conflict");
    reflexivity.
Defined.

(** C2 as stated fails when the explicit pass attaches a part: the run is
    given modules 0 and 1, and the final check and its error cover module 1
    only. *)
Lemma final_verification_original_set_counterexample :
  tree_keys (flat_tree [0; 1]) = [0; 1] /\
  pick_topologically SimWorld nat (sim scenario_explicit) 5 (flat_tree [0; 1]) []
  = Raise (PickErrorRaised (PickVerificationError "conflict" [1])).
Proof. split; reflexivity. Qed.

(** Two single-candidate modules whose batch the solver cannot deduce. *)
Lemma singleton_batch_failure_is_fatal_witness :
  exists message,
    pick_topologically SimWorld nat (sim (scenario_batch (NotDeducibleException "x")))
      5 (flat_tree [0; 1]) []
    = Raise (PickErrorRaised (MkPickError message [0; 1])).
Proof.
  apply (singleton_batch_failure_is_fatal SimWorld nat
           (sim (scenario_batch (NotDeducibleException "x"))) 5
           (flat_tree [0; 1]) [] (flat_tree [0; 1]) [] [(0, [0]); (1, [1])] []
           (NotDeducibleException "x") "x").
  - reflexivity.
  - reflexivity.
  - discriminate.
  - reflexivity.
  - right. reflexivity.
Defined.

(** C3, evaluated in the grouped pass for the head 0 of the group [0; 1]:
    a contradiction met by the catalog layer becomes a [PickError] that
    names no module, while a contradiction met by the solver refresh becomes
    a [PickError] that names the head. *)
Theorem grouped_pass_contradiction_names_no_module :
  pick_topologically SimWorld nat (sim scenario_lookup_contradiction) 5 (flat_tree [0; 1]) []
  = Raise (PickErrorRaised
             (MkPickError
                "Contradiction in system.Unfixable due to lack of backtracking.no part fits"
                [])) /\
  pick_topologically SimWorld nat (sim scenario_refresh_contradiction) 5 (flat_tree [0; 1]) []
  = Raise (PickErrorRaised (MkPickError "empty range" [0])).
Proof. split; reflexivity. Qed.

Lemma slow_pick_loop_cached_spins fuel :
  slow_pick_loop SimWorld nat (sim scenario_cached) fuel (flat_tree [0]) [(0, [0; 1])] []
  = OutOfFuel.
Proof.
  induction fuel as [|fuel IH]; [reflexivity |].
  change (bind SimWorld
            (slow_pick_round SimWorld nat (sim scenario_cached)
               (flat_tree [0]) [(0, [0; 1])])
            (fun tc => slow_pick_loop SimWorld nat (sim scenario_cached)
                         fuel (fst tc) (snd tc)) [] = OutOfFuel).
  unfold bind at 1.
  replace (slow_pick_round SimWorld nat (sim scenario_cached)
             (flat_tree [0]) [(0, [0; 1])] [])
    with (@Return SimWorld _ (flat_tree [0], [(0, [0; 1])]) []) by reflexivity.
  exact IH.
Qed.

(** C8, evaluated on one candidate module without picking parameters and a
    solver that kept its state: the grouper returns no group, a round
    removes nothing, and no number of rounds ends the loop. *)
Theorem grouped_pass_spins_without_groups fuel :
  slow_pick_round SimWorld nat (sim scenario_cached) (flat_tree [0]) [(0, [0; 1])] []
  = Return (flat_tree [0], [(0, [0; 1])]) [] /\
  pick_topologically SimWorld nat (sim scenario_cached) fuel (flat_tree [0]) []
  = OutOfFuel.
Proof.
  split; [reflexivity |].
  unfold pick_topologically, bind.
  replace (explicit_pass SimWorld nat (sim scenario_cached) (flat_tree [0]) [])
    with (@Return SimWorld _ (flat_tree [0]) []) by reflexivity.
  unfold picking_passes, bind.
  replace (_get_candidates SimWorld nat (sim scenario_cached) (flat_tree [0]) [])
    with (@Return SimWorld _ [(0, [0; 1])] []) by reflexivity.
  replace (singleton_pass SimWorld nat (sim scenario_cached) (flat_tree [0]) [(0, [0; 1])] [])
    with (@Return SimWorld _ (flat_tree [0], [(0, [0; 1])]) []) by reflexivity.
  cbn [fst snd]. now rewrite slow_pick_loop_cached_spins.
Qed.

(** ** Building and pruning the pick tree *)

Lemma Node_ind_children (P : Node -> Prop) :
  (forall m children, Forall P children -> P (mkNode m children)) ->
  forall n, P n.
Proof.
  intros H. fix IH 1. intros [m children]. apply H.
  induction children as [|c r IHr]; constructor; [apply IH | exact IHr].
Qed.

Lemma tree_modules_In d m :
  In m (tree_modules (mkTree d)) <->
  exists k v, In (k, v) d /\ (m = k \/ In m (tree_modules v)).
Proof.
  induction d as [|[k v] r IH].
  - simpl. split; [intros [] | intros (k & v & [] & _)].
  - rewrite tree_modules_cons. simpl. rewrite in_app_iff, IH. split.
    + intros [<- | [H | (k' & v' & Hin & H)]].
      * exists k, v. auto.
      * exists k, v. auto.
      * exists k', v'. auto.
    + intros (k' & v' & [E | Hin] & H).
      * inversion E. subst. destruct H as [-> | H]; auto.
      * right. right. exists k', v'. auto.
Qed.

Lemma tree_wf_items d :
  tree_wf (mkTree d) <->
  NoDup (keys d) /\ forall k v, In (k, v) d -> tree_wf v.
Proof.
  split.
  - induction d as [|[k v] r IH]; intros H.
    + split; [constructor | intros k v []].
    + pose proof H as [Hnd _]. apply tree_wf_cons in H. destruct H as (_ & Hv & Hr).
      split; [exact Hnd |]. intros k' v' [E | Hin].
      * inversion E. now subst.
      * exact (proj2 (IH Hr) k' v' Hin).
  - intros [Hnd Hall]. simpl. split; [exact Hnd |].
    clear Hnd. induction d as [|[k v] r IH]; [exact I |].
    split; [apply (Hall k v); now left |].
    apply IH. intros k' v' Hin. apply (Hall k' v'). now right.
Qed.

Lemma Tree_of_wf pairs :
  (forall k v, In (k, v) pairs -> tree_wf v) -> tree_wf (Tree_of pairs).
Proof.
  intros H. unfold Tree_of. apply tree_wf_items. split.
  - apply dict_of_items_NoDup.
  - intros k v Hin. apply (H k v). now apply dict_of_items_In.
Qed.

Section PruneFacts.
Variable has_part_picked : Module_ -> bool.

Local Abbreviation prune := (update_pick_tree has_part_picked).

Lemma kept_items_In items k v' :
  In (k, v') (kept_items has_part_picked items) <->
  exists v, In (k, v) items /\ has_part_picked k = false
            /\ snd (prune v) = false /\ v' = fst (prune v).
Proof.
  unfold kept_items. rewrite in_flat_map. split.
  - intros ([k0 v0] & Hin & H). simpl in H.
    destruct (has_part_picked k0) eqn:Eh; simpl in H; [destruct H |].
    destruct (snd (prune v0)) eqn:Es; simpl in H; [destruct H |].
    destruct H as [H | []]. inversion H. subst. exists v0. auto.
  - intros (v & Hin & Eh & Es & ->). exists (k, v). split; [assumption |].
    simpl. rewrite Eh, Es. now left.
Qed.

Lemma prune_items kv r :
  tree_items (fst (prune (mkTree (kv :: r))))
  = dict_of_items (kept_items has_part_picked (kv :: r)).
Proof. now rewrite update_pick_tree_nonempty. Qed.

Lemma prune_wf tree : tree_wf (fst (prune tree)).
Proof.
  induction tree as [items IH] using Tree_ind_items.
  destruct items as [|kv r]; [simpl; split; [constructor | exact I] |].
  rewrite update_pick_tree_nonempty. cbn [fst]. apply Tree_of_wf.
  intros k v' Hin. apply kept_items_In in Hin. destruct Hin as (v & Hin & _ & _ & ->).
  rewrite Forall_forall in IH. exact (IH (k, v) Hin).
Qed.

Lemma prune_modules tree m :
  In m (tree_modules (fst (prune tree))) ->
  In m (tree_modules tree) /\ has_part_picked m = false.
Proof.
  revert m. induction tree as [items IH] using Tree_ind_items. intros m.
  destruct items as [|kv r]; [intros [] |].
  rewrite update_pick_tree_nonempty. cbn [fst]. unfold Tree_of.
  rewrite !tree_modules_In. intros (k & v' & Hin & H).
  apply dict_of_items_In, kept_items_In in Hin.
  destruct Hin as (v & Hin & Eh & _ & ->).
  destruct H as [-> | H].
  - split; [exists k, v; auto | assumption].
  - rewrite Forall_forall in IH. destruct (IH (k, v) Hin m H) as [H1 H2].
    split; [exists k, v; auto | assumption].
Qed.

(** Every module left in a pruned tree, at any depth, is a module of the
    tree that was pruned and has no part. *)
Theorem update_pick_tree_keeps_unresolved_only tree m :
  In m (tree_modules (fst (update_pick_tree has_part_picked tree))) ->
  In m (tree_modules tree) /\ has_part_picked m = false.
Proof. apply prune_modules. Qed.

(** Pruning a pruned tree gives the same tree again, now with the flag
    false. *)
Theorem update_pick_tree_twice tree :
  update_pick_tree has_part_picked (fst (update_pick_tree has_part_picked tree))
  = (fst (update_pick_tree has_part_picked tree), false).
Proof.
  apply update_pick_tree_unresolved.
  - apply prune_wf.
  - intros m H. now apply prune_modules in H.
Qed.

(** The flag is true exactly when a tree that was not empty is pruned to
    the empty tree. *)
Theorem update_pick_tree_flag tree :
  snd (update_pick_tree has_part_picked tree) = true <->
  tree <> mkTree [] /\ fst (update_pick_tree has_part_picked tree) = mkTree [].
Proof.
  destruct tree as [[|kv r]].
  - simpl. split; [discriminate | intros [H _]; congruence].
  - rewrite update_pick_tree_nonempty. cbn [fst snd]. unfold Tree_of.
    set (d := dict_of_items (kept_items has_part_picked (kv :: r))). split.
    + intros H. split; [discriminate |].
      destruct d; [reflexivity | discriminate H].
    + intros [_ H]. now rewrite H.
Qed.

(** A top-level module stays in the pruned tree exactly when it has no part
    and the tree below it is not reported fully resolved; a module without a
    part is dropped when everything below it is resolved. *)
Theorem update_pick_tree_top_level items k :
  In k (tree_keys (fst (update_pick_tree has_part_picked (mkTree items)))) <->
  exists v, In (k, v) items /\ has_part_picked k = false
            /\ snd (update_pick_tree has_part_picked v) = false.
Proof.
  destruct items as [|kv r].
  - simpl. split; [intros [] | intros (v & [] & _)].
  - unfold tree_keys. rewrite prune_items, dict_of_items_keys, in_keys. split.
    + intros (v' & H). apply kept_items_In in H.
      destruct H as (v & Hin & Eh & Es & _). exists v. auto.
    + intros (v & Hin & Eh & Es). exists (fst (prune v)).
      apply kept_items_In. exists v. auto.
Qed.
End PruneFacts.

(** Module 1 has no part, the module 2 below it has one: 1 is dropped. *)
Lemma update_pick_tree_top_level_witness :
  ~ In 1 (tree_keys (fst (update_pick_tree (fun m => Nat.eqb m 2)
                            (mkTree [(0, mkTree []); (1, mkTree [(2, mkTree [])])])))).
Proof.
  intros H.
  apply (proj1 (update_pick_tree_top_level (fun m => Nat.eqb m 2) _ 1)) in H.
  destruct H as (v & [E | [E | []]] & _ & Hs); inversion E; subst; discriminate Hs.
Defined.

Lemma update_pick_tree_keeps_unresolved_only_witness :
  In 0 (tree_modules (mkTree [(0, mkTree []); (1, mkTree [(2, mkTree [])])]))
  /\ (fun m => Nat.eqb m 2) 0 = false.
Proof.
  apply (update_pick_tree_keeps_unresolved_only (fun m => Nat.eqb m 2)
           (mkTree [(0, mkTree []); (1, mkTree [(2, mkTree [])])]) 0).
  simpl. now left.
Defined.

Lemma update_pick_tree_flag_witness :
  snd (update_pick_tree (fun _ => true) (mkTree [(0, mkTree [])])) = true.
Proof.
  apply (proj2 (update_pick_tree_flag (fun _ => true) (mkTree [(0, mkTree [])]))).
  split; [discriminate | reflexivity].
Defined.

Section BuildFacts.
Variables has_part_picked is_pickable : Module_ -> bool.

Local Abbreviation build := (get_pick_tree has_part_picked is_pickable).
Local Abbreviation merged := (merged_children has_part_picked is_pickable).

Lemma get_pick_tree_unfold m children :
  build (mkNode m children) =
  if has_part_picked m then mkTree []
  else if is_pickable m then mkTree [(m, mkTree (merged children))]
       else mkTree (merged children).
Proof.
  assert (E : forall l acc,
    (fix merge (l : list Node) (acc : dict Tree) : dict Tree :=
       match l with
       | [] => acc
       | child :: r => merge r (dict_update acc (tree_items (build child)))
       end) l acc
    = fold_left (fun acc child => dict_update acc (tree_items (build child))) l acc).
  { induction l as [|c r IHl]; intros acc; [reflexivity | apply IHl]. }
  cbn [get_pick_tree]. rewrite E. reflexivity.
Qed.

Lemma merged_children_In children k v :
  In (k, v) (merged children) ->
  exists child, In child children /\ In (k, v) (tree_items (build child)).
Proof.
  unfold merged_children.
  assert (G : forall l acc,
    In (k, v) (fold_left (fun acc child => dict_update acc (tree_items (build child))) l acc) ->
    In (k, v) acc \/ exists child, In child l /\ In (k, v) (tree_items (build child))).
  { induction l as [|c r IHl]; simpl; intros acc H; [now left |].
    destruct (IHl _ H) as [Ha | (child & Hc & Hin)].
    - apply dict_update_In in Ha. destruct Ha as [Ha | Ha]; [now left |].
      right. exists c. auto.
    - right. exists child. auto. }
  intros H. destruct (G _ _ H) as [[] | H']. exact H'.
Qed.

Lemma merged_children_NoDup children : NoDup (keys (merged children)).
Proof.
  unfold merged_children.
  assert (G : forall l acc, NoDup (keys acc) ->
    NoDup (keys (fold_left (fun acc child => dict_update acc (tree_items (build child))) l acc))).
  { induction l as [|c r IHl]; simpl; intros acc H; [assumption |].
    apply IHl. now apply dict_update_NoDup. }
  apply G. constructor.
Qed.

Lemma get_pick_tree_wf module : tree_wf (build module).
Proof.
  induction module as [m children IH] using Node_ind_children.
  assert (Hm : tree_wf (mkTree (merged children))).
  { apply tree_wf_items. split; [apply merged_children_NoDup |].
    intros k v Hin. apply merged_children_In in Hin.
    destruct Hin as (child & Hc & Hin).
    rewrite Forall_forall in IH. specialize (IH child Hc).
    destruct (build child) as [d]. simpl in Hin.
    apply tree_wf_items in IH. now apply (proj2 IH k v). }
  rewrite get_pick_tree_unfold.
  destruct (has_part_picked m); [simpl; split; [constructor | exact I] |].
  destruct (is_pickable m); [| exact Hm].
  apply tree_wf_items. split; [repeat constructor; intros [] |].
  intros k v [E | []]. inversion E. now subst.
Qed.

Lemma get_pick_tree_modules module m :
  In m (tree_modules (build module)) ->
  is_pickable m = true /\ has_part_picked m = false.
Proof.
  revert m. induction module as [m0 children IH] using Node_ind_children. intros m.
  assert (Hm : In m (tree_modules (mkTree (merged children))) ->
               is_pickable m = true /\ has_part_picked m = false).
  { rewrite tree_modules_In. intros (k & v & Hin & H).
    apply merged_children_In in Hin. destruct Hin as (child & Hc & Hin).
    rewrite Forall_forall in IH. apply (IH child Hc).
    destruct (build child) as [d]. simpl in Hin.
    apply tree_modules_In. exists k, v. auto. }
  rewrite get_pick_tree_unfold.
  destruct (has_part_picked m0) eqn:Eh; [intros [] |].
  destruct (is_pickable m0) eqn:Ep; [| exact Hm].
  rewrite tree_modules_In. intros (k & v & [E | []] & H). inversion E. subst.
  destruct H as [-> | H]; [auto | now apply Hm].
Qed.

(** Every module of a freshly built pick tree, at any depth, is pickable
    and has no part. *)
Theorem get_pick_tree_pickable_unresolved module m :
  In m (tree_modules (get_pick_tree has_part_picked is_pickable module)) ->
  is_pickable m = true /\ has_part_picked m = false.
Proof. apply get_pick_tree_modules. Qed.

(** Pruning a freshly built pick tree, with the parts as they were when it
    was built, returns it unchanged and not fully resolved. *)
Theorem update_pick_tree_after_get_pick_tree module :
  update_pick_tree has_part_picked (get_pick_tree has_part_picked is_pickable module)
  = (get_pick_tree has_part_picked is_pickable module, false).
Proof.
  apply update_pick_tree_unresolved.
  - apply get_pick_tree_wf.
  - intros m H. now apply get_pick_tree_modules in H.
Qed.
End BuildFacts.

(** A pickable root 0 over a plain node 1 with the pickable children 2 and
    3, of which 3 has a part. *)
Lemma get_pick_tree_pickable_unresolved_witness :
  (fun m => negb (Nat.eqb m 1)) 2 = true /\ (fun m => Nat.eqb m 3) 2 = false.
Proof.
  apply (get_pick_tree_pickable_unresolved
           (fun m => Nat.eqb m 3) (fun m => negb (Nat.eqb m 1))
           (mkNode 0 [mkNode 1 [mkNode 2 []; mkNode 3 []]]) 2).
  simpl. auto.
Defined.

(** ** More on the flattened view *)

Lemma dict_get_set {V} (d : dict V) k k' v :
  dict_get k (dict_set k' v d) = if Nat.eqb k k' then Some v else dict_get k d.
Proof.
  induction d as [|[k0 v0] r IH]; simpl.
  - reflexivity.
  - destruct (Nat.eqb_spec k' k0) as [->|N]; simpl.
    + destruct (Nat.eqb k k0); reflexivity.
    + rewrite IH. destruct (Nat.eqb_spec k k0) as [->|N'].
      * destruct (Nat.eqb_spec k0 k'); [congruence | reflexivity].
      * reflexivity.
Qed.

Lemma dict_get_update_other {V} (items d : dict V) k :
  ~ In k (keys items) -> dict_get k (dict_update d items) = dict_get k d.
Proof.
  unfold dict_update. revert d.
  induction items as [|[k0 v0] r IH]; simpl; intros d H; [reflexivity |].
  rewrite IH by tauto. rewrite dict_get_set.
  destruct (Nat.eqb_spec k k0) as [->|N]; [exfalso; apply H; now left | reflexivity].
Qed.

Lemma dict_get_update_same {V} (items d d' : dict V) k :
  In k (keys items) ->
  dict_get k (dict_update d items) = dict_get k (dict_update d' items).
Proof.
  unfold dict_update. revert d d'.
  induction items as [|[k0 v0] r IH]; simpl; intros d d' H; [destruct H |].
  destruct (in_dec Nat.eq_dec k (keys r)) as [Hr | Hr].
  - now apply IH.
  - destruct H as [<- | H]; [| contradiction].
    fold (dict_update (dict_set k0 v0 d) r). fold (dict_update (dict_set k0 v0 d') r).
    rewrite !dict_get_update_other by assumption.
    rewrite !dict_get_set. now rewrite Nat.eqb_refl.
Qed.

Lemma filter_all {A} (f : A -> bool) (l : list A) :
  (forall x, In x l -> f x = true) -> filter f l = l.
Proof.
  induction l as [|a r IH]; simpl; intros H; [reflexivity |].
  rewrite (H a (or_introl eq_refl)). f_equal. apply IH. auto.
Qed.

(** When no child error is itself an aggregate, the flattened view is the
    children mapping. *)
Theorem get_all_children_of_leaves module children :
  NoDup (keys children) ->
  (forall m v, In (m, v) children -> is_PickErrorChildren v = false) ->
  get_all_children (MkPickErrorChildren module children) = children.
Proof.
  intros Hnd Hleaf. rewrite get_all_children_unfold.
  assert (E1 : leaf_items children = children).
  { apply filter_all. intros [m v] Hin. simpl. now rewrite (Hleaf m v Hin). }
  assert (E2 : nested_items children = []).
  { unfold nested_items. clear Hnd E1.
    induction children as [|[m v] r IH]; [reflexivity |].
    simpl. rewrite (Hleaf m v (or_introl eq_refl)). simpl.
    apply IH. intros m' v' Hin. apply (Hleaf m' v'). now right. }
  rewrite E1, E2. unfold dict_union. simpl. now apply dict_of_items_id.
Qed.

Lemma get_all_children_of_leaves_witness :
  get_all_children
    (MkPickErrorChildren 0 [(1, MkPickError "a" [1]); (2, MkPickErrorNotImplemented 2)])
  = [(1, MkPickError "a" [1]); (2, MkPickErrorNotImplemented 2)].
Proof.
  apply get_all_children_of_leaves.
  - repeat constructor; simpl; intuition discriminate.
  - intros m v [E | [E | []]]; inversion E; reflexivity.
Defined.

Lemma dict_get_In {V} (d : dict V) k v : dict_get k d = Some v -> In (k, v) d.
Proof.
  induction d as [|[k0 v0] r IH]; simpl; [discriminate |].
  destruct (Nat.eqb_spec k k0) as [->|N].
  - intros H. inversion H. now left.
  - intros H. right. now apply IH.
Qed.

Lemma dict_get_present {V} (d : dict V) k :
  In k (keys d) -> exists v, dict_get k d = Some v.
Proof.
  induction d as [|[k0 v0] r IH]; simpl; [intros [] |].
  destruct (Nat.eqb_spec k k0) as [->|N]; [intros _; now exists v0 |].
  intros [E | H]; [congruence | now apply IH].
Qed.

(** A module that has a cause inside a nested aggregate is reported with a
    cause from a nested aggregate, also when the children mapping itself
    gives it a cause of its own. *)
Theorem get_all_children_nested_cause_wins module children m :
  In m (keys (nested_items children)) ->
  exists k c v,
    In (k, c) children /\ is_PickErrorChildren c = true /\
    In (m, v) (get_all_children c) /\
    dict_get m (get_all_children (MkPickErrorChildren module children)) = Some v.
Proof.
  intros H. rewrite get_all_children_unfold. unfold dict_union.
  rewrite (dict_get_update_same _ _ [] m) by now apply dict_of_items_keys.
  fold (dict_of_items (dict_of_items (nested_items children))).
  rewrite dict_of_items_id by apply dict_of_items_NoDup.
  destruct (dict_get_present (dict_of_items (nested_items children)) m) as (v & Hv).
  { now apply dict_of_items_keys. }
  pose proof (dict_get_In _ _ _ Hv) as Hin.
  apply dict_of_items_In, in_nested_items in Hin.
  destruct Hin as (k & c & Hkc & Ec & Hmv). exists k, c, v. auto.
Qed.

Lemma get_all_children_nested_cause_wins_witness :
  exists k c v,
    In (k, c) [(7, MkPickError "a" [7]);
               (1, MkPickErrorChildren 1 [(7, MkPickErrorNotImplemented 7)])] /\
    is_PickErrorChildren c = true /\
    In (7, v) (get_all_children c) /\
    dict_get 7
      (get_all_children
         (MkPickErrorChildren 0
            [(7, MkPickError "a" [7]);
             (1, MkPickErrorChildren 1 [(7, MkPickErrorNotImplemented 7)])]))
    = Some v.
Proof.
  apply get_all_children_nested_cause_wins. simpl. now left.
Defined.

(** ** More on the equivalence grouper *)

Section ECSoundness.
Implicit Types (cs : EquivalenceClasses) (vs c : list nat).

Lemma EC_register_class cs v c :
  In c (EC_register cs v) -> In c cs \/ c = [v].
Proof.
  unfold EC_register. destruct (EC_known v cs); [now left |].
  intros H. apply in_app_or in H. destruct H as [H | [<- | []]]; auto.
Qed.

Lemma EC_register_all_class vs cs c :
  In c (fold_left EC_register vs cs) -> In c cs \/ exists v, In v vs /\ c = [v].
Proof.
  revert cs. induction vs as [|v r IH]; simpl; intros cs H; [now left |].
  destruct (IH _ H) as [Hc | (w & Hw & ->)].
  - apply EC_register_class in Hc. destruct Hc as [Hc | ->]; [now left |].
    right. exists v. auto.
  - right. exists w. auto.
Qed.

(** What one [add_eq] can join: elements that were together, or elements
    each with one of the values. *)
Lemma EC_add_eq_same_class vs cs x y :
  same_class (EC_add_eq vs cs) x y ->
  same_class cs x y \/
  ((exists v, In v vs /\ (x = v \/ same_class cs x v)) /\
   (exists v, In v vs /\ (y = v \/ same_class cs y v))).
Proof.
  unfold EC_add_eq. destruct vs as [|v0 r]; [now left |].
  set (vs := v0 :: r). set (cs1 := fold_left EC_register vs cs).
  assert (Hnear : forall z c1, In c1 cs1 -> EC_touches vs c1 = true -> In z c1 ->
                               exists v, In v vs /\ (z = v \/ same_class cs z v)).
  { intros z c1 Hc1 Ht Hz. apply EC_touches_spec in Ht. destruct Ht as (v & Hv & Hvc).
    apply EC_register_all_class in Hc1. destruct Hc1 as [Hc | (w & Hw & ->)].
    - exists v. split; [assumption |]. right. exists c1. auto.
    - destruct Hz as [<- | []]. exists w. auto. }
  intros (c & Hc & Hx & Hy). apply in_app_or in Hc. destruct Hc as [Hc | [<- | []]].
  - apply filter_In in Hc. destruct Hc as [Hc Ht].
    apply EC_register_all_class in Hc. destruct Hc as [Hc | (w & Hw & ->)].
    + left. exists c. auto.
    + destruct Hx as [<- | []], Hy as [<- | []].
      right. split; exists w; auto.
  - right. apply in_concat in Hx, Hy.
    destruct Hx as (c1 & Hc1 & Hx), Hy as (c2 & Hc2 & Hy).
    apply filter_In in Hc1, Hc2. destruct Hc1 as [Hc1 Ht1], Hc2 as [Hc2 Ht2].
    split; [apply (Hnear x c1) | apply (Hnear y c2)]; assumption.
Qed.

(** A run of [add_eq] joins only what a relation that holds of the values
    of each call, and is symmetric and transitive, joins. *)
Lemma EC_add_all_sound (R : nat -> nat -> Prop) vss cs :
  (forall x y, R x y -> R y x) ->
  (forall x y z, R x y -> R y z -> R x z) ->
  (forall vs x y, In vs vss -> In x vs -> In y vs -> R x y) ->
  (forall x y, same_class cs x y -> R x y) ->
  forall x y, same_class (EC_add_all vss cs) x y -> R x y.
Proof.
  intros Hsym Htrans. unfold EC_add_all. revert cs.
  induction vss as [|vs r IH]; simpl; intros cs Hgen Hbase x y H; [now apply Hbase |].
  apply (IH (EC_add_eq vs cs)); [| | exact H].
  - intros ws a b Hws. apply (Hgen ws). now right.
  - intros a b Hab. apply EC_add_eq_same_class in Hab.
    destruct Hab as [Hab | [(v & Hv & Ha) (w & Hw & Hb)]]; [now apply Hbase |].
    assert (Hvw : R v w) by (apply (Hgen vs); auto).
    assert (Hav : R a v).
    { destruct Ha as [-> | Ha]; [apply (Hgen vs); auto | now apply Hbase]. }
    assert (Hwb : R w b).
    { destruct Hb as [-> | Hb]; [apply (Hgen vs); auto | apply Hsym; now apply Hbase]. }
    eauto.
Qed.
End ECSoundness.

Section GrouperSoundness.
Variable g : DesignGraph.

Lemma param_linked_sym lits es p q :
  param_linked lits es p q -> param_linked lits es q p.
Proof.
  induction 1 as [e p q He Hc Hp Hq | p q r _ IH1 _ IH2].
  - now apply param_linked_expr with e.
  - now apply param_linked_trans with q.
Qed.

Lemma module_linked_sym modules lits es m m' :
  module_linked g modules lits es m m' -> module_linked g modules lits es m' m.
Proof.
  induction 1 as [p q m m' Hm Hm' Hp Hq Hpq | m1 m2 m3 _ IH1 _ IH2].
  - apply module_linked_param with q p; try assumption. now apply param_linked_sym.
  - now apply module_linked_trans with m2.
Qed.

Lemma same_class_param_linked lits es p q :
  same_class (param_eqs_of lits es) p q -> param_linked lits es p q.
Proof.
  rewrite param_eqs_of_run.
  apply EC_add_all_sound.
  - apply param_linked_sym.
  - apply param_linked_trans.
  - intros vs x y Hvs Hx Hy. apply in_map_iff in Hvs. destruct Hvs as (e & <- & He).
    apply filter_In in He. destruct He as [He Hc]. now apply param_linked_expr with e.
  - intros x y (c & [] & _).
Qed.

Lemma same_class_module_linked modules lits es m m' :
  same_class (module_eqs_of g modules (param_eqs_of lits es)) m m' ->
  m = m' \/ module_linked g modules lits es m m'.
Proof.
  rewrite module_eqs_of_run.
  apply (EC_add_all_sound (fun a b => a = b \/ module_linked g modules lits es a b)).
  - intros x y [-> | H]; [now left | right; now apply module_linked_sym].
  - intros x y z [-> | H1] [-> | H2]; auto.
    right. now apply module_linked_trans with y.
  - intros vs x y Hvs Hx Hy. apply in_map_iff in Hvs. destruct Hvs as (c & <- & Hc).
    apply p_modules_of_In in Hx, Hy.
    destruct Hx as (p & Hp & Hpx & Hxm), Hy as (q & Hq & Hqy & Hym).
    right. apply module_linked_param with p q; try assumption.
    apply same_class_param_linked. exists c. auto.
  - intros x y (c & Hc & Hx & Hy). left. unfold EC_new in Hc.
    apply in_map_iff in Hc. destruct Hc as (z & <- & _).
    destruct Hx as [<- | []], Hy as [<- | []]. reflexivity.
Qed.

Lemma module_linked_of_unique modules lits es m m' :
  module_linked g (unique modules) lits es m m' ->
  module_linked g modules lits es m m'.
Proof.
  induction 1 as [p q m m' Hm Hm' Hp Hq Hpq | m1 m2 m3 _ IH1 _ IH2].
  - apply module_linked_param with p q; try assumption; now apply unique_In.
  - eapply module_linked_trans; eauto.
Qed.

(** On the constraint-walking path two different modules share a group only
    if a chain of enforced constraints over directly owned, unpinned
    parameters joins them. *)
Theorem find_independent_groups_joins_only_linked modules solver lits groups m m' :
  is_DefaultSolver solver = false \/ reusable_state solver = None ->
  literal_pass g (unique modules) = Ok lits ->
  find_independent_groups modules g solver = Ok groups ->
  same_class groups m m' ->
  m = m' \/
  module_linked g modules lits
    (nodes_of_type_ConstrainableExpression g (unique modules)) m m'.
Proof.
  intros Hslow Hlits. rewrite find_independent_groups_slow_path by assumption.
  unfold find_independent_groups_slow. rewrite Hlits. simpl. unfold EC_get.
  intros H Hsame. inversion H. subst groups.
  apply same_class_module_linked in Hsame.
  destruct Hsame as [-> | Hl]; [now left | right].
  now apply module_linked_of_unique.
Qed.

Lemma collect_aliases_no_literals es aliased :
  (forall e, In e es -> constrained e = true -> operand_literals e = []) ->
  exists aliased', collect_aliases es aliased [] = Ok (aliased', []).
Proof.
  revert aliased. induction es as [|e r IH]; simpl; intros aliased H.
  - now exists aliased.
  - destruct (constrained e) eqn:Ec; simpl.
    + rewrite (H e (or_introl eq_refl) Ec). apply IH. intros e' He'. apply H. now right.
    + apply IH. intros e' He'. apply H. now right.
Qed.

Lemma unify_literals_no_literals groups : unify_literals groups [] = Ok [].
Proof.
  induction groups as [|grp r IH]; [reflexivity |]. simpl.
  replace (lits_eq_of [] grp) with (@nil Literal); [exact IH |].
  unfold lits_eq_of. induction grp as [|p grp' IHg]; [reflexivity | exact IHg].
Qed.

(** When no enforced [Is] has a literal operand, the constraint-walking path
    pins no parameter and returns its groups without raising. *)
Theorem find_independent_groups_without_literals modules solver :
  is_DefaultSolver solver = false \/ reusable_state solver = None ->
  (forall e, In e (nodes_of_type_Is g (unique modules)) ->
             constrained e = true -> operand_literals e = []) ->
  literal_pass g (unique modules) = Ok [] /\
  exists groups, find_independent_groups modules g solver = Ok groups.
Proof.
  intros Hslow Hno.
  assert (Hl : literal_pass g (unique modules) = Ok []).
  { unfold literal_pass.
    destruct (collect_aliases_no_literals _ (EC_new []) Hno) as (aliased' & ->).
    simpl. apply unify_literals_no_literals. }
  split; [exact Hl |].
  rewrite find_independent_groups_slow_path by assumption.
  unfold find_independent_groups_slow. rewrite Hl. simpl. eexists. reflexivity.
Qed.
End GrouperSoundness.

(** In [tied_pair] the modules 0 and 1 share a group, and are linked. *)
Lemma find_independent_groups_joins_only_linked_witness :
  0 = 1 \/
  module_linked tied_pair [0; 1; 2] []
    (nodes_of_type_ConstrainableExpression tied_pair (unique [0; 1; 2])) 0 1.
Proof.
  apply (find_independent_groups_joins_only_linked tied_pair [0; 1; 2] plain_solver
           [] [[2]; [0; 1]] 0 1).
  - now left.
  - reflexivity.
  - reflexivity.
  - exists [0; 1]. simpl. auto.
Defined.

Lemma find_independent_groups_without_literals_witness :
  literal_pass tied_pair (unique [0; 1; 2]) = Ok [] /\
  exists groups, find_independent_groups [0; 1; 2] tied_pair plain_solver = Ok groups.
Proof.
  apply (find_independent_groups_without_literals tied_pair [0; 1; 2] plain_solver).
  - now left.
  - intros e [<- | []] _. reflexivity.
Defined.

Section FastPathFacts.
Variables (g : DesignGraph) (state : ReusableState).

Lemma module_graphs_Ok m m_graphs :
  module_graphs g state m = Ok m_graphs ->
  exists params, pickable_parameters g m = Some params /\
                 (m_graphs <> [] -> params <> []).
Proof.
  unfold module_graphs. destruct (pickable_parameters g m) as [params |]; [| discriminate].
  intros H. inversion H. exists params. split; [reflexivity |].
  intros Hne ->. now apply Hne.
Qed.

Section Members.
Variable Q : Module_ -> Prop.

Let members_ok (d : dict (list Module_)) : Prop :=
  forall gr ms m, In (gr, ms) d -> In m ms -> Q m.

Lemma graph_to_m_add_members gr m d :
  Q m -> members_ok d -> members_ok (graph_to_m_add gr m d).
Proof.
  intros Hq Hd gr' ms' m' Hin Hm'. unfold graph_to_m_add in Hin.
  destruct (dict_get gr d) as [ms |] eqn:E.
  - apply dict_set_In in Hin. destruct Hin as [[-> ->] | Hin]; [| now apply (Hd gr' ms')].
    apply dict_get_In in E.
    destruct (mem m ms); [now apply (Hd gr ms) |].
    apply in_app_or in Hm'. destruct Hm' as [Hm' | [<- | []]];
      [now apply (Hd gr ms) | assumption].
  - apply dict_set_In in Hin. destruct Hin as [[-> ->] | Hin]; [| now apply (Hd gr' ms')].
    destruct Hm' as [<- | []]. assumption.
Qed.

Lemma graph_to_m_add_all_members m_graphs m d :
  (m_graphs <> [] -> Q m) -> members_ok d ->
  members_ok (fold_left (fun d gr => graph_to_m_add gr m d) m_graphs d).
Proof.
  destruct m_graphs as [|g0 r]; [intros _ H; exact H |].
  intros Hq. specialize (Hq ltac:(discriminate)).
  generalize (g0 :: r) as l. clear g0 r. intros l. revert d.
  induction l as [|gr l IH]; simpl; intros d Hd; [assumption |].
  apply IH. now apply graph_to_m_add_members.
Qed.

Lemma collect_graphs_members ms graphs d graphs' d' :
  (forall m params, In m ms -> pickable_parameters g m = Some params ->
                    params <> [] -> Q m) ->
  collect_graphs g state ms graphs d = Ok (graphs', d') ->
  members_ok d -> members_ok d'.
Proof.
  revert graphs d. induction ms as [|m r IH]; simpl; intros graphs d Hq H Hd.
  - inversion H. now subst.
  - destruct (module_graphs g state m) as [m_graphs | e] eqn:E; [| discriminate].
    simpl in H. eapply IH; [| exact H |].
    + intros m' params Hin. apply Hq. now right.
    + apply graph_to_m_add_all_members; [| assumption].
      intros Hne. apply module_graphs_Ok in E. destruct E as (params & Hp & Hnp).
      apply (Hq m params); [now left | assumption | now apply Hnp].
Qed.

Lemma modules_of_graphs_members d gg m :
  members_ok d -> In m (modules_of_graphs d gg) -> Q m.
Proof.
  intros Hd. unfold modules_of_graphs. rewrite unique_In, in_flat_map.
  intros (gr & _ & H). destruct (dict_get gr d) as [ms |] eqn:E; [| destruct H].
  apply dict_get_In in E. now apply (Hd gr ms).
Qed.
End Members.

Lemma collect_graphs_error ms graphs d e :
  collect_graphs g state ms graphs d = Err e ->
  e = TraitNotFound /\ exists m, In m ms /\ pickable_parameters g m = None.
Proof.
  revert graphs d. induction ms as [|m r IH]; simpl; intros graphs d H; [discriminate |].
  unfold module_graphs in H.
  destruct (pickable_parameters g m) as [params |] eqn:E; simpl in H.
  - apply IH in H. destruct H as (-> & m' & Hin & Hm').
    split; [reflexivity | exists m'; auto].
  - inversion H. split; [reflexivity | exists m; auto].
Qed.

Lemma collect_graphs_raises ms graphs d m :
  In m ms -> pickable_parameters g m = None ->
  collect_graphs g state ms graphs d = Err TraitNotFound.
Proof.
  revert graphs d. induction ms as [|a r IH]; simpl; intros graphs d Hin Hm; [destruct Hin |].
  unfold module_graphs.
  destruct (pickable_parameters g a) as [params |] eqn:E; simpl.
  - destruct Hin as [-> | Hin]; [congruence | now apply IH].
  - reflexivity.
Qed.

Lemma find_independent_groups_fast_path modules solver :
  is_DefaultSolver solver = true -> reusable_state solver = Some state ->
  find_independent_groups modules g solver
  = find_independent_groups_fast g state (unique modules).
Proof. intros H1 H2. unfold find_independent_groups. now rewrite H1, H2. Qed.

(** With the reusable state, every module of every returned group is an
    input module that has at least one picking parameter. *)
Theorem find_independent_groups_cached_members modules solver groups grp m :
  is_DefaultSolver solver = true -> reusable_state solver = Some state ->
  find_independent_groups modules g solver = Ok groups ->
  In grp groups -> In m grp ->
  In m modules /\
  exists params, pickable_parameters g m = Some params /\ params <> [].
Proof.
  intros H1 H2. rewrite find_independent_groups_fast_path by assumption.
  unfold find_independent_groups_fast.
  destruct (collect_graphs g state (unique modules) (EC_new []) [])
    as [[graphs d] |] eqn:E; [| discriminate].
  simpl. unfold EC_get. intros H Hgrp Hm. inversion H. subst groups.
  apply in_map_iff in Hgrp. destruct Hgrp as (gg & <- & _).
  revert Hm.
  apply (modules_of_graphs_members
           (fun m => In m modules /\
                     exists params, pickable_parameters g m = Some params /\ params <> [])
           d gg m).
  eapply collect_graphs_members; [| exact E | intros gr ms m' []].
  intros m' params Hin Hp Hne. split; [now apply unique_In | exists params; auto].
Qed.

(** With the reusable state, the call raises exactly when some input module
    does not carry [is_pickable_by_type], and then [TraitNotFound]. *)
Theorem find_independent_groups_cached_trait modules solver :
  is_DefaultSolver solver = true -> reusable_state solver = Some state ->
  (find_independent_groups modules g solver = Err TraitNotFound <->
   exists m, In m modules /\ pickable_parameters g m = None) /\
  (forall e, find_independent_groups modules g solver = Err e -> e = TraitNotFound).
Proof.
  intros H1 H2. rewrite find_independent_groups_fast_path by assumption.
  unfold find_independent_groups_fast.
  destruct (collect_graphs g state (unique modules) (EC_new []) [])
    as [[graphs d] | e] eqn:E; simpl.
  - split; [split; [discriminate |] | discriminate].
    intros (m & Hin & Hm). apply unique_In in Hin.
    rewrite (collect_graphs_raises _ _ _ m Hin Hm) in E. discriminate.
  - apply collect_graphs_error in E. destruct E as (-> & m & Hin & Hm).
    split; [split; [| reflexivity] | intros e H; now inversion H].
    intros _. exists m. split; [now apply unique_In | assumption].
Qed.
End FastPathFacts.

Lemma find_independent_groups_cached_members_witness :
  In 0 [0; 1] /\
  exists params, pickable_parameters tied_pair 0 = Some params /\ params <> [].
Proof.
  apply (find_independent_groups_cached_members tied_pair (mkReusableState (fun p => p))
           [0; 1] cached_solver [[0]; [1]] [0] 0); try reflexivity; simpl; auto.
Defined.

Lemma find_independent_groups_cached_trait_witness :
  find_independent_groups [0; 1; 2] one_without_trait cached_solver = Err TraitNotFound.
Proof.
  apply (proj2 (proj1 (find_independent_groups_cached_trait one_without_trait
                         (mkReusableState (fun p => p)) [0; 1; 2] cached_solver
                         eq_refl eq_refl))).
  exists 2. simpl. auto.
Defined.

(** ** More on the resolution driver *)

Lemma _list_to_hack_tree_keys modules m :
  In m (tree_keys (_list_to_hack_tree modules)) <-> In m modules.
Proof.
  unfold _list_to_hack_tree, Tree_of, tree_keys. simpl.
  rewrite dict_of_items_keys. unfold keys. rewrite map_map. simpl. now rewrite map_id.
Qed.

Section DriverMore.
Variables (World Part : Type) (C : Collaborators World Part).

Lemma first_parts_IndexError (parts : dict (list Part)) modules :
  (forall m, In m modules -> In m (keys parts)) ->
  (exists m, In m modules /\ dict_get m parts = Some []) ->
  first_parts Part parts modules = Err IndexError.
Proof.
  induction modules as [|a r IH]; simpl; intros Hk (m & Hin & Hm); [destruct Hin |].
  destruct (dict_get_present parts a (Hk a (or_introl eq_refl))) as (ps & Ha).
  rewrite Ha. destruct ps as [|p ps']; [reflexivity |].
  destruct Hin as [-> | Hin]; [congruence |].
  rewrite IH; [reflexivity | auto | exists m; auto].
Qed.

(** A round in which the catalog layer offers no candidate for one of the
    group heads ends with the [IndexError] of [parts[m][0]]: it is not
    re-wrapped into a [PickError]. *)
Theorem slow_pick_round_without_candidate tree candidates w groups heads parts w1 :
  round_groups World Part C candidates w = Return groups w ->
  group_heads_of groups = Ok heads ->
  _get_candidates World Part C (_list_to_hack_tree heads) w = Return parts w1 ->
  (forall m, In m heads -> In m (keys parts)) ->
  (exists m, In m heads /\ dict_get m parts = Some []) ->
  slow_pick_round World Part C tree candidates w = Raise IndexError.
Proof.
  intros Hg Hh Hc Hk Hz. unfold slow_pick_round, bind at 1. rewrite Hg.
  unfold bind at 1. rewrite Hh. simpl lift. unfold ret at 1.
  unfold bind at 1, try_except at 1, _get_single_candidate, bind at 1.
  rewrite Hc. unfold bind at 1. rewrite (first_parts_IndexError parts heads Hk Hz).
  reflexivity.
Qed.

Lemma slow_pick_round_grouper_error tree candidates w e :
  find_independent_groups (keys candidates) (design_graph World Part C w)
                          (solver_of World Part C w) = Err e ->
  slow_pick_round World Part C tree candidates w = Raise e.
Proof.
  intros H. unfold slow_pick_round, round_groups, bind. now rewrite H.
Qed.

(** An exception of [find_independent_groups], such as the
    [ContradictionByLiteral] of its literal pass, leaves the run as it is:
    no handler of [pick_topologically] re-wraps it. *)
Theorem grouper_exception_leaves_the_run
    fuel tree w tree1 w1 candidates w2 tree2 candidates2 w3 e :
  explicit_pass World Part C tree w = Return tree1 w1 ->
  _get_candidates World Part C tree1 w1 = Return candidates w2 ->
  singleton_pass World Part C tree1 candidates w2 = Return (tree2, candidates2) w3 ->
  candidates2 <> [] ->
  find_independent_groups (keys candidates2) (design_graph World Part C w3)
                          (solver_of World Part C w3) = Err e ->
  pick_topologically World Part C (S fuel) tree w = Raise e.
Proof.
  intros Hexp Hcand Hsingle Hne Hfind.
  unfold pick_topologically, bind. rewrite Hexp.
  unfold picking_passes, bind. rewrite Hcand, Hsingle. cbn [fst snd].
  destruct candidates2 as [|c r]; [congruence |].
  cbn [slow_pick_loop]. unfold bind.
  now rewrite (slow_pick_round_grouper_error tree2 (c :: r) w3 e Hfind).
Qed.

(** A contradiction met by the first solver refresh ends the run with a
    [PickError] that carries the solver's text and names the top-level
    modules of the tree left by the explicit pass. *)
Theorem first_refresh_contradiction fuel tree w tree1 w1 e msg :
  explicit_pass World Part C tree w = Return tree1 w1 ->
  update_superset_cache World Part C (tree_keys tree1) w1 = Raise e ->
  as_Contradiction e = Some msg ->
  pick_topologically World Part C fuel tree w
  = Raise (PickErrorRaised (MkPickError msg (tree_keys tree1))).
Proof.
  intros Hexp Hup Hmsg.
  unfold pick_topologically, bind. rewrite Hexp.
  unfold picking_passes, bind, _get_candidates, bind, try_except.
  now rewrite Hup, Hmsg.
Qed.

(** The explicit pass stops with an [AssertionError] when the catalog layer
    offers no part or several parts for the first explicit module. *)
Theorem explicit_pass_expects_one_part tree w m parts rest w1 :
  _find_modules World Part C
    (_list_to_hack_tree
       (filter (fun m => is_pickable_by_part_number World Part C w m
                         || is_pickable_by_supplier_id World Part C w m)
               (tree_keys tree))) w
  = Return ((m, parts) :: rest) w1 ->
  List.length parts <> 1 ->
  explicit_pass World Part C tree w = Raise AssertionError.
Proof.
  intros Hfind Hlen. unfold explicit_pass, bind at 1, gets.
  unfold bind at 1. rewrite Hfind. unfold bind at 1. simpl for_each.
  destruct parts as [|p [|q ps]]; [reflexivity | now elim Hlen | reflexivity].
Qed.

(** The groups picked for a round are groups the grouper returned: all of
    them when none has one module only, and otherwise those of one
    module. *)
Theorem select_groups_prefers_singletons groups :
  (forall grp, In grp (select_groups groups) -> In grp groups) /\
  ((exists grp, In grp groups /\ List.length grp = 1) ->
   forall grp, In grp (select_groups groups) <-> In grp groups /\ List.length grp = 1) /\
  ((forall grp, In grp groups -> List.length grp <> 1) ->
   select_groups groups = groups).
Proof.
  split; [apply select_groups_incl | split].
  - intros Hex grp. split.
    + intros H. split; [now apply select_groups_incl |].
      exact (select_groups_singletons groups Hex grp H).
    + intros [Hin Hl]. unfold select_groups.
      assert (Hf : In grp (filter (fun grp => Nat.eqb (List.length grp) 1) groups))
        by (apply filter_In; split; [assumption | now apply Nat.eqb_eq]).
      destruct (filter (fun grp => Nat.eqb (List.length grp) 1) groups);
        [destruct Hf | exact Hf].
  - intros Hno. unfold select_groups.
    destruct (filter (fun grp => Nat.eqb (List.length grp) 1) groups) as [|a r] eqn:E;
      [reflexivity |].
    assert (Ha : In a (filter (fun grp => Nat.eqb (List.length grp) 1) groups))
      by (rewrite E; now left).
    apply filter_In in Ha. destruct Ha as [Ha Hl]. apply Nat.eqb_eq in Hl.
    now elim (Hno a Ha).
Qed.

(** A contradiction met by the solver refresh for the group heads of a
    round ends the round with a [PickError] that carries the solver's text
    and names exactly the group heads. *)
Theorem slow_pick_round_refresh_names_heads tree candidates w groups heads e msg :
  round_groups World Part C candidates w = Return groups w ->
  group_heads_of groups = Ok heads ->
  update_superset_cache World Part C (tree_keys (_list_to_hack_tree heads)) w = Raise e ->
  as_Contradiction e = Some msg ->
  exists modules,
    slow_pick_round World Part C tree candidates w
    = Raise (PickErrorRaised (MkPickError msg modules)) /\
    forall m, In m modules <-> In m heads.
Proof.
  intros Hg Hh Hup Hmsg. exists (tree_keys (_list_to_hack_tree heads)). split.
  - apply (slow_pick_round_refresh_contradiction World Part C tree candidates w
             groups heads e msg); assumption.
  - intros m. apply _list_to_hack_tree_keys.
Qed.
End DriverMore.

Lemma slow_pick_loop_terminates_witness :
  slow_pick_loop SimWorld nat (sim scenario_tied) 2 (flat_tree [0; 1])
    [(0, [0; 1]); (1, [2; 3])] [] <> OutOfFuel.
Proof.
  apply (slow_pick_loop_terminates SimWorld nat (sim scenario_tied) 2).
  - repeat split; intros; intros w; discriminate.
  - intros w. now left.
  - simpl. lia.
Defined.

Lemma slow_pick_round_without_candidate_witness :
  slow_pick_round SimWorld nat (sim scenario_exhausted) (flat_tree [0; 1])
    [(0, [7; 8]); (1, [])] [] = Raise IndexError.
Proof.
  apply (slow_pick_round_without_candidate SimWorld nat (sim scenario_exhausted)
           (flat_tree [0; 1]) [(0, [7; 8]); (1, [])] [] [[0]; [1]] [0; 1]
           [(0, [7; 8]); (1, [])] []).
  - reflexivity.
  - reflexivity.
  - reflexivity.
  - simpl. tauto.
  - exists 1. simpl. auto.
Defined.

Lemma grouper_exception_leaves_the_run_witness :
  pick_topologically SimWorld nat (sim scenario_conflict) 1 (flat_tree [0; 1]) []
  = Raise (ContradictionByLiteral "").
Proof.
  apply (grouper_exception_leaves_the_run SimWorld nat (sim scenario_conflict) 0
           (flat_tree [0; 1]) [] (flat_tree [0; 1]) []
           [(0, [0; 1]); (1, [2; 3])] [] (flat_tree [0; 1])
           [(0, [0; 1]); (1, [2; 3])] []).
  - reflexivity.
  - reflexivity.
  - reflexivity.
  - discriminate.
  - reflexivity.
Defined.

Lemma first_refresh_contradiction_witness :
  pick_topologically SimWorld nat (sim scenario_refresh_contradiction) 3 (flat_tree [0]) []
  = Raise (PickErrorRaised (MkPickError "empty range" [0])).
Proof.
  apply (first_refresh_contradiction SimWorld nat (sim scenario_refresh_contradiction) 3
           (flat_tree [0]) [] (flat_tree [0]) [] (Contradiction "empty range") "empty range");
    reflexivity.
Defined.

Lemma explicit_pass_expects_one_part_witness :
  explicit_pass SimWorld nat (sim scenario_ambiguous_explicit) (flat_tree [0; 1]) []
  = Raise AssertionError.
Proof.
  apply (explicit_pass_expects_one_part SimWorld nat (sim scenario_ambiguous_explicit)
           (flat_tree [0; 1]) [] 0 [0; 1] [] []).
  - reflexivity.
  - discriminate.
Defined.

Lemma select_groups_prefers_singletons_witness :
  In [2] (select_groups [[0; 1]; [2]]) /\ select_groups [[0; 1]; [2; 3]] = [[0; 1]; [2; 3]].
Proof.
  split.
  - apply (proj1 (proj2 (select_groups_prefers_singletons [[0; 1]; [2]]))).
    + exists [2]. simpl. auto.
    + simpl. auto.
  - apply (proj2 (proj2 (select_groups_prefers_singletons [[0; 1]; [2; 3]]))).
    intros grp [<- | [<- | []]]; discriminate.
Defined.

Lemma slow_pick_round_refresh_names_heads_witness :
  exists modules,
    slow_pick_round SimWorld nat (sim scenario_refresh_contradiction) (flat_tree [0; 1])
      [(0, [0; 1]); (1, [2; 3])] []
    = Raise (PickErrorRaised (MkPickError "empty range" modules)) /\
    forall m, In m modules <-> In m [0].
Proof.
  apply (slow_pick_round_refresh_names_heads SimWorld nat (sim scenario_refresh_contradiction)
           (flat_tree [0; 1]) [(0, [0; 1]); (1, [2; 3])] [] [[0; 1]] [0]
           (Contradiction "empty range") "empty range");
    reflexivity.
Defined.
